(** * Poetry Assistant: hash tables, rhyme scoring, build and query

    A shallow embedding of the JavaScript sources
    [hashTable.js], [rhymeScorer.js], [allliteration.js],
    [buildAssistant.js], [index.js] and [utils.js] (the last one is carried
    at the end of [psudocode.md]).

    Conventions of the embedding.
    - A JavaScript string is a [string]: a sequence of code units below
      256, that is ASCII and Latin-1 text.  On these [toLowerCase] and
      [trim] are written out in full (the capital letters A-Z and
      U+00C0-U+00DE; the white space U+0009-U+000D, U+0020 and U+00A0).
      The words the build accepts match [/^[a-zA-Z]+$/].
    - The numbers of the hash table (sizes, indices, counters) are
      non-negative integers, [N]; the numbers of the scorer, which may go
      below zero, are [Z].  All of them stay far below 2^53, where the
      arithmetic of JavaScript numbers is exact.
    - A call either returns a value or throws: [Outcome].
    - Objects that are mutated in place ([HashTable], the alliteration
      array) are passed explicitly: a function returns the new state of the
      object next to its result. *)

From Stdlib Require Import ZArith NArith Lia List Ascii String Bool.
From stdpp Require Import base list.
Import ListNotations.

#[local] Open Scope string_scope.
#[local] Open Scope N_scope.

(** ** Completions *)

Inductive Error : Type :=
| TypeError.

Inductive Outcome (A : Type) : Type :=
| Returned (a : A)
| Thrown (e : Error).
Arguments Returned {A} a.
Arguments Thrown {A} e.

(** ** Strings *)

Module Str.

(** [s.length] *)
Definition len (s : string) : nat := String.length s.

(** [s[i]]: [None] stands for [undefined]. *)
Definition at_ (s : string) (i : nat) : option ascii := String.get i s.

(** [s.charCodeAt(i)]: [None] stands for [NaN]. *)
Definition charCodeAt (s : string) (i : nat) : option N :=
  option_map N_of_ascii (String.get i s).

(** The lower-case form of a code unit below 256: the letters A-Z and the
    Latin-1 capitals U+00C0-U+00DE, the sign U+00D7 apart, move up by 32. *)
Definition lowerChar (c : ascii) : ascii :=
  let n := N_of_ascii c in
  if ((65 <=? n) && (n <=? 90))
     || ((192 <=? n) && (n <=? 222) && negb (n =? 215))
  then ascii_of_N (n + 32) else c.

(** [s.toLowerCase()] *)
Fixpoint toLowerCase (s : string) : string :=
  match s with
  | EmptyString => EmptyString
  | String c r => String (lowerChar c) (toLowerCase r)
  end.

Fixpoint drop (n : nat) (s : string) : string :=
  match n, s with
  | O, _ => s
  | S n', EmptyString => EmptyString
  | S n', String _ r => drop n' r
  end.

(** [s.slice(start)]: a negative [start] counts from the end, and both
    ends are clamped to the string. *)
Definition slice (s : string) (start : Z) : string :=
  let n := Z.of_nat (len s) in
  let from := if (start <? 0)%Z then Z.max (n + start) 0 else Z.min start n in
  drop (Z.to_nat from) s.

(** [s === t] on strings. *)
Definition eqb (s t : string) : bool := String.eqb s t.

(** [a === b] on the results of [s[i]]: two characters, or [undefined]. *)
Definition charEqb (a b : option ascii) : bool :=
  match a, b with
  | Some x, Some y => Ascii.eqb x y
  | None, None => true
  | _, _ => false
  end.

End Str.

(** ** hashTable.js *)

(** A bucket of the table: [{ suffix, words }]. *)
Record Entry : Type := mkEntry {
  suffix : string;
  words : list string
}.

(** [class HashTable]: a slot of [table] is [null] ([None]) or an entry. *)
Record HashTable : Type := mkHashTable {
  size : N;
  table : list (option Entry);
  count : N;
  probeSteps : N
}.

(** [new HashTable(size)] *)
Definition newHashTable (size : N) : HashTable :=
  {| size := size;
     table := replicate (N.to_nat size) None;
     count := 0;
     probeSteps := 0 |}.

Fixpoint computeHashLoop (s : string) (tableSize : N) (hash : N) : N :=
  match s with
  | EmptyString => hash
  | String c r => computeHashLoop r tableSize ((hash * 31 + N_of_ascii c) mod tableSize)
  end.

(** [computeHash(string, tableSize)].  For [tableSize = 0] and a non-empty
    string JavaScript computes [NaN]; every caller then skips its probing
    loop ([attempts < 0] is false), so the value is never used. *)
Definition computeHash (s : string) (tableSize : N) : N :=
  computeHashLoop s tableSize 0.

(** [T.table[index]]: [None] stands for [undefined] (index past the array). *)
Definition slot (T : HashTable) (index : N) : option (option Entry) :=
  table T !! N.to_nat index.

Definition setSlot (T : HashTable) (index : N) (e : Entry) : list (option Entry) :=
  <[N.to_nat index := Some e]> (table T).

(** The [while (attempts < T.size)] loop of [insertHash].  [fuel] is
    [T.size - attempts], the number of iterations that are left. *)
Fixpoint insertLoop (fuel : nat) (T : HashTable) (sfx word : string) (index : N)
  : Outcome bool * HashTable :=
  match fuel with
  | O => (Returned false, T)
  | S fuel' =>
      match slot T index with
      | None => (Thrown TypeError, T)
      | Some None =>
          (Returned true,
           {| size := size T;
              table := setSlot T index {| suffix := sfx; words := [word] |};
              count := count T + 1;
              probeSteps := probeSteps T |})
      | Some (Some e) =>
          if Str.eqb (suffix e) sfx then
            (Returned true,
             {| size := size T;
                table := setSlot T index {| suffix := suffix e; words := (words e ++ [word])%list |};
                count := count T;
                probeSteps := probeSteps T |})
          else insertLoop fuel' T sfx word ((index + 1) mod size T)
      end
  end.

(** [insertHash(T, suffix, word)] *)
Definition insertHash (T : HashTable) (sfx word : string) : Outcome bool * HashTable :=
  insertLoop (N.to_nat (size T)) T sfx word (computeHash sfx (size T)).

(** The loop of [searchHash]; a collision adds one to [T.probeSteps]. *)
Fixpoint searchLoop (fuel : nat) (T : HashTable) (sfx : string) (index : N)
  : Outcome (list string) * HashTable :=
  match fuel with
  | O => (Returned [], T)
  | S fuel' =>
      match slot T index with
      | None => (Thrown TypeError, T)
      | Some None => (Returned [], T)
      | Some (Some e) =>
          if Str.eqb (suffix e) sfx then (Returned (words e), T)
          else
            searchLoop fuel'
              {| size := size T;
                 table := table T;
                 count := count T;
                 probeSteps := probeSteps T + 1 |}
              sfx ((index + 1) mod size T)
      end
  end.

(** [searchHash(T, suffix)] *)
Definition searchHash (T : HashTable) (sfx : string) : Outcome (list string) * HashTable :=
  searchLoop (N.to_nat (size T)) T sfx (computeHash sfx (size T)).

(** ** utils.js *)

(** [extractSuffix(word, length)] *)
Definition extractSuffix (word : string) (length : Z) : string :=
  let word := Str.toLowerCase word in
  let n := Z.of_nat (Str.len word) in
  if (n <=? length)%Z then word else Str.slice word (- length).

(** [vowels.includes(c)] / [vowels.has(c)] *)
Definition isVowel (c : ascii) : bool :=
  match c with
  | "a" | "e" | "i" | "o" | "u" => true
  | _ => false
  end%char.

(** [vowels.includes(word[i])], false on [undefined]. *)
Definition isVowelAt (word : string) (i : nat) : bool :=
  match Str.at_ word i with
  | Some c => isVowel c
  | None => false
  end.

(** The [for] loop of [countSyllables] from index [i] on: [rest] is the
    part of the word that is still to be read. *)
Fixpoint syllableLoop (rest : string) (i : nat) (syllables : Z) (previousWasVowel : bool) : Z :=
  match rest with
  | EmptyString => syllables
  | String c rest' =>
      let isV :=
        if Ascii.eqb c "y" then Nat.ltb 0 i && negb previousWasVowel
        else isVowel c in
      syllableLoop rest' (S i)
        (if isV && negb previousWasVowel then syllables + 1 else syllables)%Z
        isV
  end.

(** [countSyllables(word)] *)
Definition countSyllables (word : string) : Z :=
  let word := Str.toLowerCase word in
  let n := Str.len word in
  if Nat.eqb n 0 then 0%Z
  else
    let syllables := syllableLoop word 0 0%Z false in
    let syllables :=
      if Nat.leb 3 n && Str.charEqb (Str.at_ word (n - 1)) (Some "e"%char) then
        if negb (isVowelAt word (n - 2))
           && negb (Str.charEqb (Str.at_ word (n - 2)) (Some "y"%char))
        then (syllables - 1)%Z else syllables
      else syllables in
    if (syllables <? 1)%Z then 1%Z else syllables.

(** [word.replaceAll(pat, rep)] for a non-empty [pat] (every pattern of the
    program is a literal of two to four letters): the matches are found
    left to right and do not overlap.  [skip] counts the characters of the
    match in progress that are still to be dropped. *)
Fixpoint replaceAllFrom (pat rep : string) (skip : nat) (s : string) : string :=
  match s with
  | EmptyString => EmptyString
  | String c r =>
      match skip with
      | S k => replaceAllFrom pat rep k r
      | O =>
          if String.prefix pat s
          then rep ++ replaceAllFrom pat rep (Str.len pat - 1) r
          else String c (replaceAllFrom pat rep 0 r)
      end
  end.

Definition replaceAll (s pat rep : string) : string := replaceAllFrom pat rep 0 s.

(** The normalisation loop of [computePhoneticKey], from the position whose
    remaining text is [word]; the result is what the loop appends to [key].
    The inner [while] loops, which step over a run of vowels or over
    repeats of a consonant, are the local [skip]. *)
Fixpoint keyLoop (word : string) : string :=
  match word with
  | EmptyString => EmptyString
  | String c rest =>
      let skip :=
        fix skip (p : ascii -> bool) (s : string) {struct s} : string :=
          match s with
          | EmptyString => EmptyString
          | String d s' => if p d then skip p s' else keyLoop s
          end in
      if isVowel c then String "V" (skip isVowel rest)
      else if Ascii.eqb c "c" then
        match rest with
        | String d _ =>
            if Ascii.eqb d "e" || Ascii.eqb d "i" then String "S" (keyLoop rest)
            else String "K" (keyLoop rest)
        | EmptyString => String "K" (keyLoop rest)
        end
      else String c (skip (Ascii.eqb c) rest)
  end.

(** [computePhoneticKey(word)] *)
Definition computePhoneticKey (word : string) : string :=
  let word := Str.toLowerCase word in
  let word := replaceAll word "ough" "O" in
  let word := replaceAll word "augh" "AF" in
  let word := replaceAll word "tion" "SHUN" in
  let word := replaceAll word "sion" "ZHUN" in
  let word := replaceAll word "ph" "F" in
  let word := replaceAll word "gh" "" in
  let word := replaceAll word "ck" "K" in
  let word := replaceAll word "wh" "W" in
  let word := replaceAll word "wr" "R" in
  let word := replaceAll word "kn" "N" in
  let word := replaceAll word "gn" "N" in
  let word := replaceAll word "mb" "M" in
  keyLoop word.

Definition isLetter (c : ascii) : bool :=
  let n := N_of_ascii c in
  ((65 <=? n) && (n <=? 90)) || ((97 <=? n) && (n <=? 122)).

Fixpoint allLetters (s : string) : bool :=
  match s with
  | EmptyString => true
  | String c r => isLetter c && allLetters r
  end.

(** [isAlphabetic(word)]: [/^[a-zA-Z]+$/.test(word)] *)
Definition isAlphabetic (word : string) : bool :=
  match word with
  | EmptyString => false
  | _ => allLetters word
  end.

(** ** rhymeScorer.js: [scoreRhyme] *)

(** The [while] loop that counts matching characters from the end.  It runs
    at most [word1.length] times, since [i] starts at [word1.length - 1] and
    goes down by one; [fuel] bounds the iterations. *)
Fixpoint matchLoop (fuel : nat) (word1 word2 : string) (i j matchingChars : Z) : Z :=
  match fuel with
  | O => matchingChars
  | S fuel' =>
      if (0 <=? i)%Z && (0 <=? j)%Z
         && Str.charEqb (Str.at_ word1 (Z.to_nat i)) (Str.at_ word2 (Z.to_nat j))
      then matchLoop fuel' word1 word2 (i - 1) (j - 1) (matchingChars + 1)
      else matchingChars
  end.

(** [scoreRhyme(word1, word2)] *)
Definition scoreRhyme (word1 word2 : string) : Z :=
  if Str.eqb word1 word2 then 0%Z
  else
    let score := 0%Z in
    let i := (Z.of_nat (Str.len word1) - 1)%Z in
    let j := (Z.of_nat (Str.len word2) - 1)%Z in
    let matchingChars := matchLoop (S (Str.len word1)) word1 word2 i j 0 in
    let charScore := (matchingChars * 15)%Z in
    let charScore := if (60 <? charScore)%Z then 60%Z else charScore in
    let score := (score + charScore)%Z in
    let score :=
      if negb (Str.charEqb (Str.at_ word1 0) (Str.at_ word2 0))
      then (score + 20)%Z else score in
    let lengthDiff := Z.abs (Z.of_nat (Str.len word1) - Z.of_nat (Str.len word2)) in
    if (lengthDiff =? 0)%Z then (score + 20)%Z
    else if (lengthDiff =? 1)%Z then (score + 15)%Z
    else if (lengthDiff =? 2)%Z then (score + 10)%Z
    else if (lengthDiff <=? 4)%Z then (score + 5)%Z
    else score.


(** ** The shared structures and the calls made on them *)

(** The object [{ rhymeTable, phoneticTable, alliterationTable }] that the
    build creates and every query receives. *)
Record Tables : Type := mkTables {
  rhymeTable : HashTable;
  phoneticTable : HashTable;
  alliterationTable : list (list string)
}.

Inductive TableId : Type :=
| Rhyme
| Phonetic.

(** What a computation did to the shared structures, in program order:
    the calls of [insertHash] (with what they returned) and of
    [searchHash], and the reads [AlliterationTable[index]] ([None] is the
    index [NaN]). *)
Inductive Call : Type :=
| InsertHashCall (t : TableId) (sfx word : string) (result : Outcome bool)
| SearchHashCall (t : TableId) (sfx : string)
| AlliterationRead (index : option Z).

Record Run (A : Type) : Type := mkRun {
  outcome : Outcome A;
  final : Tables;
  calls : list Call
}.
Arguments mkRun {A} _ _ _.
Arguments outcome {A} _.
Arguments final {A} _.
Arguments calls {A} _.

(** A computation over the shared structures: it starts from their current
    state and ends in a [Run]. *)
Definition JS (A : Type) : Type := Tables -> Run A.

Definition ret {A : Type} (a : A) : JS A :=
  fun s => mkRun (Returned a) s [].

Definition throw {A : Type} (e : Error) : JS A :=
  fun s => mkRun (Thrown e) s [].

Definition bind {A B : Type} (m : JS A) (k : A -> JS B) : JS B :=
  fun s =>
    let r := m s in
    match outcome r with
    | Returned a =>
        let r' := k a (final r) in
        mkRun (outcome r') (final r') (calls r ++ calls r')%list
    | Thrown e => mkRun (Thrown e) (final r) (calls r)
    end.

Notation "x <- m ;; k" := (bind m (fun x => k))
  (at level 100, m at next level, right associativity).

Definition getTable (t : TableId) (s : Tables) : HashTable :=
  match t with
  | Rhyme => rhymeTable s
  | Phonetic => phoneticTable s
  end.

Definition setTable (t : TableId) (T : HashTable) (s : Tables) : Tables :=
  match t with
  | Rhyme => mkTables T (phoneticTable s) (alliterationTable s)
  | Phonetic => mkTables (rhymeTable s) T (alliterationTable s)
  end.

(** [insertHash(tables.t, sfx, word)] *)
Definition insertHashIn (t : TableId) (sfx word : string) : JS bool :=
  fun s =>
    let (r, T') := insertHash (getTable t s) sfx word in
    mkRun r (setTable t T' s) [InsertHashCall t sfx word r].

(** [searchHash(tables.t, sfx)] *)
Definition searchHashIn (t : TableId) (sfx : string) : JS (list string) :=
  fun s =>
    let (r, T') := searchHash (getTable t s) sfx in
    mkRun r (setTable t T' s) [SearchHashCall t sfx].

(** The value of [AlliterationTable[index]]; [None] is [undefined]. *)
Definition alliterationAt (s : Tables) (index : option Z) : option (list string) :=
  match index with
  | Some i => if (i <? 0)%Z then None else alliterationTable s !! Z.to_nat i
  | None => None
  end.

(** The expression [AlliterationTable[index]]. *)
Definition readAlliteration (index : option Z) : JS (option (list string)) :=
  fun s => mkRun (Returned (alliterationAt s index)) s [AlliterationRead index].

(** [AlliterationTable[index]] where a list is needed: a property of
    [undefined] cannot be read. *)
Definition readAlliterationList (index : option Z) : JS (list string) :=
  e <- readAlliteration index ;;
  match e with
  | Some l => ret l
  | None => throw TypeError
  end.

(** [alliterationTable[letterIndex].push(word)] *)
Definition pushAlliteration (letterIndex : Z) (word : string) : JS unit :=
  l <- readAlliterationList (Some letterIndex) ;;
  fun s =>
    mkRun (Returned tt)
      (mkTables (rhymeTable s) (phoneticTable s)
         (<[Z.to_nat letterIndex := (l ++ [word])%list]> (alliterationTable s)))
      [].

(** ** allliteration.js *)

(** [letter.charCodeAt(0) - "a".charCodeAt(0)]; [None] is [NaN]. *)
Definition letterIndexOf (letter : string) : option Z :=
  option_map (fun c => (Z.of_N c - 97)%Z) (Str.charCodeAt letter 0).

(** [index < 0 || index > 25]; both comparisons are false on [NaN]. *)
Definition indexOutOfRange (index : option Z) : bool :=
  match index with
  | Some i => (i <? 0)%Z || (25 <? i)%Z
  | None => false
  end.

(** [findAlliteration(AlliterationTable, letter, maxResults)] *)
Definition findAlliteration (letter : string) (maxResults : Z) : JS (list string) :=
  let letter := Str.toLowerCase letter in
  let index := letterIndexOf letter in
  if indexOutOfRange index then ret []
  else
    e <- readAlliteration index ;;
    match e with
    | None => ret []
    | Some _ =>
        l <- readAlliterationList index ;;
        if Nat.eqb (length l) 0 then ret []
        else
          wordList <- readAlliterationList index ;;
          let limit := Z.min maxResults (Z.of_nat (length wordList)) in
          ret (take (Z.to_nat limit) wordList)
    end.

(** ** rhymeScorer.js: [findRhymes] and [phoneticSearch] *)

(** An element [{ word, score }] of [scoredRhymes]. *)
Record Scored : Type := mkScored {
  word : string;
  score : Z
}.

(** The scoring loop: the candidates with a positive score, in order. *)
Fixpoint scoreCandidates (inputWord : string) (candidates : list string) : list Scored :=
  match candidates with
  | [] => []
  | candidateWord :: rest =>
      let sc := scoreRhyme inputWord candidateWord in
      if (0 <? sc)%Z
      then {| word := candidateWord; score := sc |} :: scoreCandidates inputWord rest
      else scoreCandidates inputWord rest
  end.

(** [scoredRhymes.sort((a, b) => b.score - a.score)]: the sort is stable, so
    an element goes in front of the first one whose score is not larger. *)
Fixpoint insertByScore (x : Scored) (l : list Scored) : list Scored :=
  match l with
  | [] => [x]
  | y :: l' =>
      if (score y <=? score x)%Z then x :: l else y :: insertByScore x l'
  end.

Fixpoint sortByScore (l : list Scored) : list Scored :=
  match l with
  | [] => []
  | x :: l' => insertByScore x (sortByScore l')
  end.

(** The tail shared by [findRhymes] and [phoneticSearch]: score, sort, and
    keep the first [maxResults] words. *)
Definition rankCandidates (inputWord : string) (candidates : list string) (maxResults : Z)
  : list string :=
  let scoredRhymes := sortByScore (scoreCandidates inputWord candidates) in
  let limit := Z.min maxResults (Z.of_nat (length scoredRhymes)) in
  map word (take (Z.to_nat limit) scoredRhymes).

(** [findRhymes(rhymeTable, inputWord, suffixLength, maxResults)] *)
Definition findRhymes (t : TableId) (inputWord : string) (suffixLength maxResults : Z)
  : JS (list string) :=
  let sfx := extractSuffix inputWord suffixLength in
  candidates <- searchHashIn t sfx ;;
  ret (rankCandidates inputWord candidates maxResults).

(** [phoneticSearch(phoneticTable, inputWord, suffixLength, maxResults)] *)
Definition phoneticSearch (t : TableId) (inputWord : string) (suffixLength maxResults : Z)
  : JS (list string) :=
  let phoneticKey := computePhoneticKey inputWord in
  let phoneticSuffix := extractSuffix phoneticKey suffixLength in
  candidates <- searchHashIn t phoneticSuffix ;;
  ret (rankCandidates inputWord candidates maxResults).

(** ** index.js *)

Record QueryResult : Type := mkQueryResult {
  rhymes : list string;
  syllables : Z;
  alliterations : list string
}.

(** [rhymes.includes(w)] *)
Definition includes (l : list string) (w : string) : bool :=
  existsb (Str.eqb w) l.

(** The loop that appends the phonetic rhymes that are not yet in [rhymes]. *)
Fixpoint appendNew (rhymes phoneticRhymes : list string) : list string :=
  match phoneticRhymes with
  | [] => rhymes
  | p :: rest =>
      if includes rhymes p then appendNew rhymes rest
      else appendNew (rhymes ++ [p])%list rest
  end.

(** [query(tables, inputWord, suffixLength)].  [inputWord[0]] is [undefined]
    for the empty word, and [findAlliteration] then throws at
    [letter.toLowerCase()]. *)
Definition query (inputWord : string) (suffixLength : Z) : JS QueryResult :=
  rhymes <- findRhymes Rhyme inputWord suffixLength 10 ;;
  let syllables := countSyllables inputWord in
  let firstLetter := Str.at_ inputWord 0 in
  alliterations <-
    match firstLetter with
    | Some c => findAlliteration (String c EmptyString) 5
    | None => throw TypeError
    end ;;
  rhymes <-
    (if Nat.ltb (length rhymes) 3 then
       phoneticRhymes <- phoneticSearch Phonetic inputWord suffixLength 7 ;;
       ret (appendNew rhymes phoneticRhymes)
     else ret rhymes) ;;
  ret {| rhymes := rhymes; syllables := syllables; alliterations := alliterations |}.

(** ** buildAssistant.js *)

(** White space in the sense of [String.prototype.trim], among the code
    units below 256: U+0009-U+000D, the space U+0020 and the no-break space
    U+00A0. *)
Definition isSpace (c : ascii) : bool :=
  let n := N_of_ascii c in
  ((9 <=? n) && (n <=? 13)) || (n =? 32) || (n =? 160).

Fixpoint trimStart (s : string) : string :=
  match s with
  | EmptyString => EmptyString
  | String c r => if isSpace c then trimStart r else s
  end.

Fixpoint trimEnd (s : string) : string :=
  match s with
  | EmptyString => EmptyString
  | String c r =>
      match trimEnd r with
      | EmptyString => if isSpace c then EmptyString else String c EmptyString
      | r' => String c r'
      end
  end.

(** [line.trim()] *)
Definition trim (s : string) : string := trimEnd (trimStart s).

(** [text.split("\n")] *)
Fixpoint splitLines (text : string) : list string :=
  match text with
  | EmptyString => [EmptyString]
  | String c r =>
      if Ascii.eqb c "010" then EmptyString :: splitLines r
      else
        match splitLines r with
        | line :: rest => String c line :: rest
        | [] => [String c EmptyString]
        end
  end.

(** [const tableSize = 6577] *)
Definition tableSize : N := 6577.

(** The [stats] of the build's result; [rhymeTableLoadFactor] is the
    quotient [count / size], kept as the pair of its two operands. *)
Record Stats : Type := mkStats {
  wordCount : N;
  rhymeTableCount : N;
  rhymeTableProbeSteps : N;
  rhymeTableLoadFactor : N * N;
  phoneticTableCount : N;
  phoneticTableProbeSteps : N
}.

(** What [buildPoetryAssistant] returns: the three structures and [stats]. *)
Record BuildResult : Type := mkBuildResult {
  tables : Tables;
  stats : Stats
}.

(** The three structures as the build creates them. *)
Definition newTables : Tables :=
  {| rhymeTable := newHashTable tableSize;
     phoneticTable := newHashTable tableSize;
     alliterationTable := replicate 26 [] |}.

(** The body of the loop over the lines, for one accepted [word]. *)
Definition addWord (word : string) (suffixLength : Z) : JS unit :=
  let sfx := extractSuffix word suffixLength in
  _ <- insertHashIn Rhyme sfx word ;;
  let firstLetter := Str.toLowerCase (String.substring 0 1 word) in
  match letterIndexOf firstLetter with
  | None => throw TypeError
  | Some letterIndex =>
      _ <- pushAlliteration letterIndex word ;;
      let phoneticKey := computePhoneticKey word in
      let phoneticSuffix := extractSuffix phoneticKey suffixLength in
      _ <- insertHashIn Phonetic phoneticSuffix word ;;
      ret tt
  end.

(** The loop over [lines]; the result is the final [wordCount]. *)
Fixpoint buildLoop (lines : list string) (suffixLength : Z) (wordCount : N) : JS N :=
  match lines with
  | [] => ret wordCount
  | line :: rest =>
      if Str.eqb line EmptyString then buildLoop rest suffixLength wordCount
      else
        let word := trim line in
        if Nat.ltb 0 (Str.len word) && isAlphabetic word then
          _ <- addWord word suffixLength ;;
          buildLoop rest suffixLength (wordCount + 1)
        else buildLoop rest suffixLength wordCount
  end.

Definition statsOf (s : Tables) (wordCount : N) : Stats :=
  {| wordCount := wordCount;
     rhymeTableCount := count (rhymeTable s);
     rhymeTableProbeSteps := probeSteps (rhymeTable s);
     rhymeTableLoadFactor := (count (rhymeTable s), size (rhymeTable s));
     phoneticTableCount := count (phoneticTable s);
     phoneticTableProbeSteps := probeSteps (phoneticTable s) |}.

(** The run of [buildPoetryAssistant(wordlistText, suffixLength)] on the
    structures it has just created. *)
Definition buildRun (wordlistText : string) (suffixLength : Z) : Run N :=
  buildLoop (splitLines wordlistText) suffixLength 0 newTables.

(** [buildPoetryAssistant(wordlistText, suffixLength)] *)
Definition buildPoetryAssistant (wordlistText : string) (suffixLength : Z)
  : Outcome BuildResult :=
  let r := buildRun wordlistText suffixLength in
  match outcome r with
  | Returned wordCount =>
      Returned {| tables := final r; stats := statsOf (final r) wordCount |}
  | Thrown e => Thrown e
  end.


(** * Vocabulary of the properties *)

(** The array of a table has as many slots as [size] says. *)
Definition wfTable (T : HashTable) : Prop :=
  length (table T) = N.to_nat (size T).

(** The index reached from [index] after [a] collisions. *)
Fixpoint probeIndex (T : HashTable) (a : nat) (index : N) : N :=
  match a with
  | O => index
  | S a' => probeIndex T a' ((index + 1) mod size T)
  end.

(** Slot [j] is bound to a key other than [k]. *)
Definition otherKeyAt (T : HashTable) (j : nat) (k : string) : Prop :=
  exists e, table T !! j = Some (Some e) /\ suffix e <> k.

(** What a successful insert did at slot [j]: it bound an empty slot to
    [k], or it appended to the list of the slot already bound to [k]. *)
Definition placedAt (T T' : HashTable) (j : nat) (k x : string) : Prop :=
  (table T !! j = Some None /\
   T' = {| size := size T;
           table := <[j := Some {| suffix := k; words := [x] |}]> (table T);
           count := count T + 1;
           probeSteps := probeSteps T |})
  \/
  (exists e, table T !! j = Some (Some e) /\ suffix e = k /\
   T' = {| size := size T;
           table := <[j := Some {| suffix := k; words := (words e ++ [x])%list |}]> (table T);
           count := count T;
           probeSteps := probeSteps T |}).

(** [T.probeSteps++] *)
Definition bumpProbeSteps (T : HashTable) : HashTable :=
  {| size := size T; table := table T; count := count T; probeSteps := probeSteps T + 1 |}.

(** The states of a table: a new table, and whatever a call of
    [insertHash] makes of a state. *)
Inductive Reachable : HashTable -> Prop :=
| Reachable_new (n : N) : Reachable (newHashTable n)
| Reachable_insert (T T' : HashTable) (k x : string) (r : Outcome bool) :
    Reachable T -> insertHash T k x = (r, T') -> Reachable T'.

(** Every bound slot is the first slot of its key's probe sequence that is
    bound to the key, and only slots bound to other keys come before it. *)
Definition ProbeInvariant (T : HashTable) : Prop :=
  forall (j : nat) (e : Entry),
    table T !! j = Some (Some e) ->
    exists a : nat,
      N.to_nat (probeIndex T a (computeHash (suffix e) (size T))) = j /\
      forall a' : nat, (a' < a)%nat ->
        otherKeyAt T (N.to_nat (probeIndex T a' (computeHash (suffix e) (size T)))) (suffix e).


(** Both hash tables of the shared structures are well formed. *)
Definition wfTables (s : Tables) : Prop :=
  wfTable (rhymeTable s) /\ wfTable (phoneticTable s).

(** The alliteration array has its 26 lists. *)
Definition wfAlliteration (s : Tables) : Prop :=
  length (alliterationTable s) = 26%nat.

(** The computation called [searchHash] on the phonetic table. *)
Definition searchedPhonetic (cs : list Call) : Prop :=
  exists sfx, In (SearchHashCall Phonetic sfx) cs.

Definition isFailedInsert (c : Call) : bool :=
  match c with
  | InsertHashCall _ _ _ (Returned false) => true
  | _ => false
  end.

(** Some call of [insertHash] returned [false]. *)
Definition someInsertFailed (cs : list Call) : Prop :=
  existsb isFailedInsert cs = true.

(** A call surfaces a failure to its caller when it does not complete with
    its usual value.  The value of [buildPoetryAssistant] is the object
    [BuildResult], whose fields are the three structures and [stats], none
    of them a status; so the build could surface a failure only by
    throwing. *)
Definition reportsFailure {A : Type} (o : Outcome A) : Prop :=
  exists e, o = Thrown e.

(** The steps of [query] after the orthographic search and the
    alliteration lookup: the phonetic fallback and the result. *)
Definition queryTail (inputWord : string) (suffixLength : Z)
           (rs al : list string) : JS QueryResult :=
  rhymes <-
    (if Nat.ltb (length rs) 3 then
       phoneticRhymes <- phoneticSearch Phonetic inputWord suffixLength 7 ;;
       ret (appendNew rs phoneticRhymes)
     else ret rs) ;;
  ret {| rhymes := rhymes;
         syllables := countSyllables inputWord;
         alliterations := al |}.

(** Slot [j] of the table is bound to the key [k]. *)
Definition boundAt (T : HashTable) (j : nat) (k : string) : Prop :=
  exists e, table T !! j = Some (Some e) /\ suffix e = k.

(** Some slot of the table is bound to the key [k]. *)
Definition bound (T : HashTable) (k : string) : Prop :=
  exists j, boundAt T j k.

(** The keys of the bound slots, in the order of the array. *)
Fixpoint keysOf (l : list (option Entry)) : list string :=
  match l with
  | [] => []
  | Some e :: l' => suffix e :: keysOf l'
  | None :: l' => keysOf l'
  end.

(** The test that [buildPoetryAssistant] makes on a line: the word it
    accepts, if any. *)
Definition accepted (line : string) : option string :=
  if Str.eqb line EmptyString then None
  else
    let word := trim line in
    if Nat.ltb 0 (Str.len word) && isAlphabetic word then Some word else None.

(** The words of a list of lines that the build accepts, in order. *)
Fixpoint acceptedWords (lines : list string) : list string :=
  match lines with
  | [] => []
  | line :: rest =>
      match accepted line with
      | Some word => word :: acceptedWords rest
      | None => acceptedWords rest
      end
  end.

(** The characters of a string read as the digits of a number in base 256. *)
Fixpoint codeFrom (s : string) (acc : N) : N :=
  match s with
  | EmptyString => acc
  | String c r => codeFrom r (acc * 256 + N_of_ascii c)
  end.

Definition codeOf (s : string) : N := codeFrom s 0.

(** Every number of the list is smaller than the next one. *)
Fixpoint increasingb (l : list N) : bool :=
  match l with
  | x :: ((y :: _) as l') => (x <? y) && increasingb l'
  | _ => true
  end.

(** ** Concrete inputs *)

Definition nl : string := String "010" EmptyString.

(** The [i]-th word of three lower-case letters in dictionary order. *)
Definition word3 (i : N) : string :=
  String (ascii_of_N (97 + i / 676))
    (String (ascii_of_N (97 + (i / 26) mod 26))
       (String (ascii_of_N (97 + i mod 26)) EmptyString)).

(** The text of [n] lines [word3 i], [word3 (i + 1)], ... *)
Fixpoint wordsFrom (n : nat) (i : N) : string :=
  match n with
  | O => EmptyString
  | S n' => word3 i ++ nl ++ wordsFrom n' (i + 1)
  end.

(** A word list with one more word than the tables have slots: the words
    aaa, aab, ..., jsz, each with a suffix of its own. *)
Definition overfullText : string := wordsFrom (S (N.to_nat tableSize)) 0.

(** Two words whose suffixes of length three, "ing" and "pil", hash to the
    same slot of a table of 6577 slots. *)
Definition collidingText : string := "sing" ++ nl ++ "pupil".

Definition collidingTables : Tables := final (buildRun collidingText 3).

(** A word list in which "cat" has two rhymes on the suffix "at", and one
    in which it has three. *)
Definition twoRhymesText : string := "cat" ++ nl ++ "hat" ++ nl ++ "bat".

Definition threeRhymesText : string :=
  "cat" ++ nl ++ "hat" ++ nl ++ "bat" ++ nl ++ "mat".

(** A table of seven slots after one insert. *)
Definition oneKeyTable : HashTable :=
  snd (insertHash (newHashTable 7) "at" "cat").

(** ** Vocabulary of the further properties *)

(** The table after the calls [insertHash(T, k, x)] for the pairs [(k, x)]
    of a list, in order. *)
Fixpoint insertAll (T : HashTable) (kws : list (string * string)) : HashTable :=
  match kws with
  | [] => T
  | (k, x) :: rest => insertAll (snd (insertHash T k x)) rest
  end.

(** The words of those calls that were made with the key [k] and returned
    [true], in order. *)
Fixpoint placedWords (T : HashTable) (kws : list (string * string)) (k : string)
  : list string :=
  match kws with
  | [] => []
  | (k0, x) :: rest =>
      let r := insertHash T k0 x in
      match fst r with
      | Returned true =>
          if Str.eqb k0 k then x :: placedWords (snd r) rest k
          else placedWords (snd r) rest k
      | _ => placedWords (snd r) rest k
      end
  end.

(** The list goes down in score: no element has a larger score than one
    that comes before it. *)
Definition descending (l : list Scored) : Prop :=
  forall (i j : nat) (a b : Scored),
    (i <= j)%nat -> l !! i = Some a -> l !! j = Some b -> (score b <= score a)%Z.

(** The words of a list go down in their score against [inputWord]. *)
Definition descendingWords (inputWord : string) (l : list string) : Prop :=
  forall (i j : nat) (a b : string),
    (i <= j)%nat -> l !! i = Some a -> l !! j = Some b ->
    (scoreRhyme inputWord b <= scoreRhyme inputWord a)%Z.

(** The string without its longest prefix of characters that satisfy [p]. *)
Fixpoint dropWhile (p : ascii -> bool) (s : string) : string :=
  match s with
  | EmptyString => EmptyString
  | String c r => if p c then dropWhile p r else s
  end.

(** Every character of the string satisfies [p]. *)
Fixpoint allChars (p : ascii -> bool) (s : string) : bool :=
  match s with
  | EmptyString => true
  | String c r => p c && allChars p r
  end.

(** A character that a phonetic key can hold: not a lower-case vowel, and
    not a lower-case c. *)
Definition isKeyChar (c : ascii) : bool :=
  negb (isVowel c) && negb (Ascii.eqb c "c").

(** Every call of [insertHash] for the pairs of the list returned [true]. *)
Fixpoint allPlaced (T : HashTable) (kws : list (string * string)) : bool :=
  match kws with
  | [] => true
  | (k, x) :: rest =>
      match fst (insertHash T k x) with
      | Returned true => allPlaced (snd (insertHash T k x)) rest
      | _ => false
      end
  end.

(** The strings of a list, each of them once. *)
Fixpoint distinct (l : list string) : list string :=
  match l with
  | [] => []
  | x :: rest => if existsb (Str.eqb x) rest then distinct rest else x :: distinct rest
  end.

(** The words of a list with the key [k], in order. *)
Fixpoint wordsWithKey (key : string -> string) (k : string) (ws : list string)
  : list string :=
  match ws with
  | [] => []
  | w :: rest =>
      if Str.eqb (key w) k then w :: wordsWithKey key k rest
      else wordsWithKey key k rest
  end.

(** The pairs (key, word) that the build passes to [insertHash]. *)
Definition keyed (key : string -> string) (ws : list string) : list (string * string) :=
  map (fun w => (key w, w)) ws.

(** The index of the alliteration list of a word: the place of its first
    letter, lower-cased, in the alphabet (0 when the word has none). *)
Definition letterSlot (word : string) : nat :=
  match letterIndexOf (Str.toLowerCase (String.substring 0 1 word)) with
  | Some i => Z.to_nat i
  | None => 0%nat
  end.

(** The alliteration array after [alliterationTable[j].push(word)]. *)
Definition pushAt (j : nat) (word : string) (al : list (list string)) : list (list string) :=
  match al !! j with
  | Some l => <[j := (l ++ [word])%list]> al
  | None => al
  end.

(** The alliteration array after the pushes for the words of a list. *)
Fixpoint pushAll (al : list (list string)) (ws : list string) : list (list string) :=
  match ws with
  | [] => al
  | w :: rest => pushAll (pushAt (letterSlot w) w al) rest
  end.

(** The words of a list whose alliteration list is the [i]-th. *)
Fixpoint wordsWithSlot (i : nat) (ws : list string) : list string :=
  match ws with
  | [] => []
  | w :: rest =>
      if Nat.eqb (letterSlot w) i then w :: wordsWithSlot i rest
      else wordsWithSlot i rest
  end.

(** The key under which the build files a word in each of its two tables. *)
Definition tableKey (t : TableId) (suffixLength : Z) (word : string) : string :=
  match t with
  | Rhyme => extractSuffix word suffixLength
  | Phonetic => extractSuffix (computePhoneticKey word) suffixLength
  end.

(** Two states of a table with the same buckets: they differ at most in the
    counter of probe steps. *)
Definition sameTable (T T' : HashTable) : Prop :=
  size T = size T' /\ table T = table T' /\ count T = count T'.

(** Two states of the shared structures with the same buckets and the same
    alliteration lists. *)
Definition sameBuckets (s s' : Tables) : Prop :=
  sameTable (rhymeTable s) (rhymeTable s') /\
  sameTable (phoneticTable s) (phoneticTable s') /\
  alliterationTable s = alliterationTable s'.

(** A computation that cannot tell such states apart: from two of them it
    completes in the same way, after the same calls, in two of them. *)
Definition Respects {A : Type} (m : JS A) : Prop :=
  forall s s' : Tables,
    sameBuckets s s' ->
    outcome (m s) = outcome (m s') /\
    calls (m s) = calls (m s') /\
    sameBuckets (final (m s)) (final (m s')).

(** A computation that leaves the buckets and the alliteration lists as
    they are. *)
Definition Keeps {A : Type} (m : JS A) : Prop :=
  forall s : Tables, sameBuckets s (final (m s)).

(** ** buildAssistant.js: loading the word list *)

(** What [await fetch(wordlistUrl)] and [await response.text()] came to:
    [fetch] was rejected, the response was not [ok], reading the text was
    rejected, or the text of the file. *)
Inductive Fetched : Type :=
| FetchRejected
| ResponseNotOk
| TextRejected
| FetchedText (wordlistText : string).

(** The value to which the promise of
    [buildPoetryAssistantFromFile(wordlistUrl, suffixLength)] resolves, given
    what the fetch came to; [None] is [null].  The [catch] block turns
    whatever is thrown inside [try] into [null]. *)
Definition buildPoetryAssistantFromFile (fetched : Fetched) (suffixLength : Z)
  : option BuildResult :=
  match fetched with
  | FetchRejected => None
  | ResponseNotOk => None
  | TextRejected => None
  | FetchedText wordlistText =>
      match buildPoetryAssistant wordlistText suffixLength with
      | Returned r => Some r
      | Thrown _ => None
      end
  end.
(** * Properties *)

(** ** The hash table *)

Lemma Str_eqb_eq (s t : string) : Str.eqb s t = true <-> s = t.
Proof. apply String.eqb_eq. Qed.

Lemma Str_eqb_neq (s t : string) : Str.eqb s t = false <-> s <> t.
Proof. apply String.eqb_neq. Qed.

Section HashTableLoops.

#[local] Open Scope nat_scope.

Lemma computeHashLoop_lt (s : string) (n h : N) :
  (h < n)%N -> (computeHashLoop s n h < n)%N.
Proof.
  revert h. induction s as [|c r IH]; intros h Hh; simpl; [exact Hh|].
  apply IH. apply N.mod_lt. lia.
Qed.

Lemma computeHash_lt (s : string) (n : N) : (0 < n)%N -> (computeHash s n < n)%N.
Proof. intros Hn. apply computeHashLoop_lt. exact Hn. Qed.

(** A successful insert stops at the first slot of the probe sequence
    that is empty or bound to the key. *)
Lemma insertLoop_true (fuel : nat) (T T' : HashTable) (k x : string) (index : N) :
  insertLoop fuel T k x index = (Returned true, T') ->
  exists a, a < fuel /\
    (forall a', a' < a -> otherKeyAt T (N.to_nat (probeIndex T a' index)) k) /\
    placedAt T T' (N.to_nat (probeIndex T a index)) k x.
Proof.
  revert index. induction fuel as [|fuel IH]; intros index H; simpl in H.
  - discriminate.
  - unfold slot in H.
    destruct (table T !! N.to_nat index) as [[e|]|] eqn:Hs.
    + destruct (Str.eqb (suffix e) k) eqn:Hk.
      * apply Str_eqb_eq in Hk. inversion H; subst T'; clear H.
        exists 0. split; [lia|]. split; [intros a' Ha'; lia|].
        right. exists e. simpl. unfold setSlot. rewrite Hk. auto.
      * apply Str_eqb_neq in Hk.
        destruct (IH _ H) as (a & Ha & Hbefore & Hplaced).
        exists (S a). split; [lia|]. split.
        -- intros [|a'] Ha'; simpl.
           ++ exists e. auto.
           ++ apply Hbefore. lia.
        -- exact Hplaced.
    + inversion H; subst T'; clear H.
      exists 0. split; [lia|]. split; [intros a' Ha'; lia|].
      left. simpl. auto.
    + discriminate.
Qed.

(** An insert that does not succeed leaves the table as it was. *)
Lemma insertLoop_unchanged (fuel : nat) (T T' : HashTable) (k x : string) (index : N)
      (r : Outcome bool) :
  insertLoop fuel T k x index = (r, T') -> r <> Returned true -> T' = T.
Proof.
  revert index. induction fuel as [|fuel IH]; intros index H Hr; simpl in H.
  - inversion H. reflexivity.
  - unfold slot in H.
    destruct (table T !! N.to_nat index) as [[e|]|].
    + destruct (Str.eqb (suffix e) k).
      * inversion H; subst; congruence.
      * eapply IH; eauto.
    + inversion H; subst; congruence.
    + inversion H. reflexivity.
Qed.

(** On a well-formed table the probing never reads past the array. *)
Lemma insertLoop_returns (fuel : nat) (T : HashTable) (k x : string) (index : N) :
  wfTable T -> (index < size T)%N \/ fuel = 0 ->
  exists b, fst (insertLoop fuel T k x index) = Returned b.
Proof.
  intros Hwf. revert index. induction fuel as [|fuel IH]; intros index Hi; simpl.
  - eauto.
  - destruct Hi as [Hi|Hi]; [|discriminate].
    unfold slot.
    destruct (table T !! N.to_nat index) as [[e|]|] eqn:Hs.
    + destruct (Str.eqb (suffix e) k); simpl; eauto.
      apply IH. left. apply N.mod_lt. lia.
    + simpl. eauto.
    + apply lookup_ge_None in Hs. unfold wfTable in Hwf. lia.
Qed.

Lemma placedAt_wf (T T' : HashTable) (j : nat) (k x : string) :
  placedAt T T' j k x -> wfTable T -> wfTable T'.
Proof.
  unfold wfTable.
  intros [[_ ->]|(e & _ & _ & ->)] Hwf; simpl; rewrite length_insert; exact Hwf.
Qed.

Lemma placedAt_size (T T' : HashTable) (j : nat) (k x : string) :
  placedAt T T' j k x -> size T' = size T.
Proof. intros [[_ ->]|(e & _ & _ & ->)]; reflexivity. Qed.

Lemma insertHash_cases (T T' : HashTable) (k x : string) (r : Outcome bool) :
  insertHash T k x = (r, T') ->
  (r <> Returned true /\ T' = T) \/
  (r = Returned true /\
   exists a, a < N.to_nat (size T) /\
     (forall a', a' < a ->
        otherKeyAt T (N.to_nat (probeIndex T a' (computeHash k (size T)))) k) /\
     placedAt T T' (N.to_nat (probeIndex T a (computeHash k (size T)))) k x).
Proof.
  unfold insertHash. intros H.
  destruct r as [[|]|e].
  - right. split; [reflexivity|]. eapply insertLoop_true; eauto.
  - left. split; [congruence|]. eapply insertLoop_unchanged; eauto; congruence.
  - left. split; [congruence|]. eapply insertLoop_unchanged; eauto; congruence.
Qed.

Lemma insertHash_wf (T T' : HashTable) (k x : string) (r : Outcome bool) :
  insertHash T k x = (r, T') -> wfTable T -> wfTable T'.
Proof.
  intros H Hwf. destruct (insertHash_cases _ _ _ _ _ H) as [[_ ->]|[_ (a & _ & _ & Hp)]].
  - exact Hwf.
  - eapply placedAt_wf; eauto.
Qed.

Lemma insertHash_size (T T' : HashTable) (k x : string) (r : Outcome bool) :
  insertHash T k x = (r, T') -> size T' = size T.
Proof.
  intros H. destruct (insertHash_cases _ _ _ _ _ H) as [[_ ->]|[_ (a & _ & _ & Hp)]].
  - reflexivity.
  - eapply placedAt_size; eauto.
Qed.

Lemma insertHash_returns (T : HashTable) (k x : string) :
  wfTable T -> exists b, fst (insertHash T k x) = Returned b.
Proof.
  intros Hwf. unfold insertHash. apply insertLoop_returns; [exact Hwf|].
  destruct (N.eq_dec (size T) 0%N) as [H0|H0].
  - right. rewrite H0. reflexivity.
  - left. apply computeHash_lt. lia.
Qed.

End HashTableLoops.

Section SearchLoop.

#[local] Open Scope nat_scope.

Lemma probeIndex_size (T1 T2 : HashTable) (a : nat) (index : N) :
  size T1 = size T2 -> probeIndex T1 a index = probeIndex T2 a index.
Proof.
  intros Hs. revert index. induction a as [|a IH]; intros index; simpl; [reflexivity|].
  rewrite Hs. apply IH.
Qed.

(** A search changes nothing but the counter of probe steps, which can
    only grow. *)
Lemma searchLoop_frame (fuel : nat) (T T' : HashTable) (k : string) (index : N)
      (r : Outcome (list string)) :
  searchLoop fuel T k index = (r, T') ->
  size T' = size T /\ table T' = table T /\ count T' = count T /\
  (probeSteps T <= probeSteps T')%N.
Proof.
  revert T index. induction fuel as [|fuel IH]; intros T index H; simpl in H.
  - inversion H; subst. repeat split; lia.
  - unfold slot in H.
    destruct (table T !! N.to_nat index) as [[e|]|].
    + destruct (Str.eqb (suffix e) k).
      * inversion H; subst. repeat split; lia.
      * apply IH in H. simpl in H. destruct H as (? & ? & ? & ?).
        repeat split; try assumption. lia.
    + inversion H; subst. repeat split; lia.
    + inversion H; subst. repeat split; lia.
Qed.

Lemma searchLoop_returns (fuel : nat) (T : HashTable) (k : string) (index : N) :
  wfTable T -> (index < size T)%N \/ fuel = 0 ->
  exists ws, fst (searchLoop fuel T k index) = Returned ws.
Proof.
  revert T index. induction fuel as [|fuel IH]; intros T index Hwf Hi; simpl.
  - eauto.
  - destruct Hi as [Hi|Hi]; [|discriminate].
    unfold slot.
    destruct (table T !! N.to_nat index) as [[e|]|] eqn:Hs.
    + destruct (Str.eqb (suffix e) k); simpl; eauto.
      apply IH; [exact Hwf|]. left. simpl. apply N.mod_lt. lia.
    + simpl. eauto.
    + apply lookup_ge_None in Hs. unfold wfTable in Hwf. lia.
Qed.

(** A search returns the list of the first slot of the probe sequence
    that is bound to the key, when only other keys come before it. *)
Lemma searchLoop_finds (fuel : nat) (T : HashTable) (k : string) (index : N)
      (a : nat) (e : Entry) :
  a < fuel ->
  (forall a', a' < a -> otherKeyAt T (N.to_nat (probeIndex T a' index)) k) ->
  table T !! N.to_nat (probeIndex T a index) = Some (Some e) ->
  suffix e = k ->
  fst (searchLoop fuel T k index) = Returned (words e).
Proof.
  revert T index a. induction fuel as [|fuel IH]; intros T index a Ha Hbefore Hat Hk.
  - lia.
  - simpl. unfold slot. destruct a as [|a].
    + simpl in Hat. rewrite Hat. apply Str_eqb_eq in Hk. rewrite Hk. reflexivity.
    + destruct (Hbefore 0 ltac:(lia)) as (e0 & He0 & Hne). simpl in He0.
      rewrite He0. apply Str_eqb_neq in Hne. rewrite Hne.
      apply (IH (bumpProbeSteps T) _ a); [lia| | |exact Hk].
      * intros a' Ha'. rewrite (probeIndex_size (bumpProbeSteps T) T) by reflexivity.
        apply (Hbefore (S a')). lia.
      * rewrite (probeIndex_size (bumpProbeSteps T) T) by reflexivity. exact Hat.
Qed.

Lemma searchHash_frame (T T' : HashTable) (k : string) (r : Outcome (list string)) :
  searchHash T k = (r, T') ->
  size T' = size T /\ table T' = table T /\ count T' = count T /\
  (probeSteps T <= probeSteps T')%N.
Proof. apply searchLoop_frame. Qed.

Lemma searchHash_wf (T T' : HashTable) (k : string) (r : Outcome (list string)) :
  searchHash T k = (r, T') -> wfTable T -> wfTable T'.
Proof.
  intros H Hwf. apply searchHash_frame in H as (Hs & Ht & _).
  unfold wfTable. rewrite Ht, Hs. exact Hwf.
Qed.

Lemma searchHash_returns (T : HashTable) (k : string) :
  wfTable T -> exists ws, fst (searchHash T k) = Returned ws.
Proof.
  intros Hwf. unfold searchHash. apply searchLoop_returns; [exact Hwf|].
  destruct (N.eq_dec (size T) 0%N) as [H0|H0].
  - right. rewrite H0. reflexivity.
  - left. apply computeHash_lt. lia.
Qed.

(** The slot where an insert placed its word is bound to the key, holds
    the word, and the slots probed before it are as they were. *)
Lemma placedAt_lookup (T T' : HashTable) (j : nat) (k x : string) :
  placedAt T T' j k x ->
  exists e', table T' !! j = Some (Some e') /\ suffix e' = k /\ x ∈ words e' /\
    forall i, i <> j -> table T' !! i = table T !! i.
Proof.
  intros [[Hj ->]|(e & Hj & Hk & ->)]; simpl;
    pose proof (lookup_lt_Some _ _ _ Hj) as Hlt.
  - eexists. split; [apply list_lookup_insert_eq; exact Hlt|]. simpl.
    split; [reflexivity|]. split; [apply list_elem_of_singleton; reflexivity|].
    intros i Hi. apply list_lookup_insert_ne. congruence.
  - eexists. split; [apply list_lookup_insert_eq; exact Hlt|]. simpl.
    split; [reflexivity|]. split; [apply elem_of_app; right; apply list_elem_of_singleton; reflexivity|].
    intros i Hi. apply list_lookup_insert_ne. congruence.
Qed.

(** The slot of an insert was empty or bound to the key: it is none of
    the slots bound to another key. *)
Lemma placedAt_not_other (T T' : HashTable) (j : nat) (k x : string) :
  placedAt T T' j k x -> ~ otherKeyAt T j k.
Proof.
  intros [[Hj _]|(e & Hj & Hk & _)] (e0 & He0 & Hne); congruence.
Qed.

Lemma insert_then_search (T T' : HashTable) (k x : string) :
  insertHash T k x = (Returned true, T') ->
  exists ws, fst (searchHash T' k) = Returned ws /\ x ∈ ws.
Proof.
  intros H.
  destruct (insertHash_cases _ _ _ _ _ H) as [[Hr _]|[_ (a & Ha & Hbefore & Hp)]];
    [congruence|].
  pose proof (placedAt_size _ _ _ _ _ Hp) as Hsize.
  destruct (placedAt_lookup _ _ _ _ _ Hp) as (e' & Hj & Hk & Hx & Hother).
  exists (words e'). split; [|exact Hx].
  unfold searchHash. rewrite Hsize.
  apply (searchLoop_finds _ _ _ _ a); [exact Ha| | |exact Hk].
  - intros a' Ha'. rewrite (probeIndex_size T' T) by exact Hsize.
    destruct (Hbefore a' Ha') as (e0 & He0 & Hne).
    exists e0. split; [|exact Hne]. rewrite Hother; [exact He0|].
    intros Heq. apply (placedAt_not_other _ _ _ _ _ Hp).
    rewrite <- Heq. exists e0. auto.
  - rewrite (probeIndex_size T' T) by exact Hsize. exact Hj.
Qed.

End SearchLoop.

Section Invariant.

#[local] Open Scope nat_scope.

Lemma ProbeInvariant_new (n : N) : ProbeInvariant (newHashTable n).
Proof.
  intros j e H. simpl in H. apply lookup_replicate in H as [H _]. discriminate.
Qed.

Lemma otherKeyAt_placed (T T' : HashTable) (j i : nat) (k x k0 : string) :
  placedAt T T' j k x -> otherKeyAt T i k0 -> otherKeyAt T' i k0.
Proof.
  intros Hp (e0 & He0 & Hne).
  destruct (decide (i = j)) as [->|Hij].
  - destruct Hp as [[Hj _]|(e & Hj & Hk & ->)]; [congruence|].
    simpl. eexists. split.
    + apply list_lookup_insert_eq. eapply lookup_lt_Some; eauto.
    + simpl. congruence.
  - destruct (placedAt_lookup _ _ _ _ _ Hp) as (_ & _ & _ & _ & Hother).
    exists e0. split; [|exact Hne]. rewrite Hother; auto.
Qed.

Lemma ProbeInvariant_placed (T T' : HashTable) (a : nat) (k x : string) :
  ProbeInvariant T ->
  (forall a', a' < a ->
     otherKeyAt T (N.to_nat (probeIndex T a' (computeHash k (size T)))) k) ->
  placedAt T T' (N.to_nat (probeIndex T a (computeHash k (size T)))) k x ->
  ProbeInvariant T'.
Proof.
  intros Hinv Hbefore Hp i e Hi.
  pose proof (placedAt_size _ _ _ _ _ Hp) as Hsize.
  destruct (placedAt_lookup _ _ _ _ _ Hp) as (e' & Hj & Hk & _ & Hother).
  rewrite Hsize.
  destruct (decide (i = N.to_nat (probeIndex T a (computeHash k (size T))))) as [->|Hne].
  - assert (e = e') by congruence. subst e'. rewrite Hk.
    exists a. rewrite (probeIndex_size T' T) by exact Hsize. split; [reflexivity|].
    intros a' Ha'. rewrite (probeIndex_size T' T) by exact Hsize.
    eapply otherKeyAt_placed; eauto.
  - rewrite Hother in Hi by exact Hne.
    destruct (Hinv _ _ Hi) as (b & Hb & Hbb).
    exists b. rewrite (probeIndex_size T' T) by exact Hsize. split; [exact Hb|].
    intros a' Ha'. rewrite (probeIndex_size T' T) by exact Hsize.
    eapply otherKeyAt_placed; eauto.
Qed.

Lemma ProbeInvariant_insert (T T' : HashTable) (k x : string) (r : Outcome bool) :
  ProbeInvariant T -> insertHash T k x = (r, T') -> ProbeInvariant T'.
Proof.
  intros Hinv H.
  destruct (insertHash_cases _ _ _ _ _ H) as [[_ ->]|[_ (a & _ & Hbefore & Hp)]].
  - exact Hinv.
  - eapply ProbeInvariant_placed; eauto.
Qed.

Lemma Reachable_ProbeInvariant (T : HashTable) : Reachable T -> ProbeInvariant T.
Proof.
  induction 1 as [n|T T' k x r _ IH H].
  - apply ProbeInvariant_new.
  - eapply ProbeInvariant_insert; eauto.
Qed.

Lemma Reachable_wf (T : HashTable) : Reachable T -> wfTable T.
Proof.
  induction 1 as [n|T T' k x r _ IH H].
  - unfold wfTable. simpl. apply length_replicate.
  - eapply insertHash_wf; eauto.
Qed.

(** Under the invariant, two slots bound to one key are the same slot. *)
Lemma ProbeInvariant_unique (T : HashTable) (i j : nat) (e1 e2 : Entry) :
  ProbeInvariant T ->
  table T !! i = Some (Some e1) -> table T !! j = Some (Some e2) ->
  suffix e1 = suffix e2 -> i = j.
Proof.
  intros Hinv Hi Hj Hk.
  destruct (Hinv _ _ Hi) as (a & Ha & Hbefore_a).
  destruct (Hinv _ _ Hj) as (b & Hb & Hbefore_b).
  rewrite Hk in Ha, Hbefore_a.
  destruct (Nat.lt_trichotomy a b) as [Hlt|[Heq|Hgt]].
  - destruct (Hbefore_b a Hlt) as (e0 & He0 & Hne).
    rewrite Ha in He0. congruence.
  - subst b. congruence.
  - destruct (Hbefore_a b Hgt) as (e0 & He0 & Hne).
    rewrite Hb in He0. congruence.
Qed.

End Invariant.

(** ** The rhyme scorer *)

Section Scorer.

#[local] Open Scope Z_scope.

Lemma charEqb_sym (a b : option ascii) : Str.charEqb a b = Str.charEqb b a.
Proof. destruct a, b; simpl; auto using Ascii.eqb_sym. Qed.

Lemma matchLoop_ge (fuel : nat) (w1 w2 : string) (i j m : Z) :
  m <= matchLoop fuel w1 w2 i j m.
Proof.
  revert i j m. induction fuel as [|fuel IH]; intros i j m; simpl; [lia|].
  destruct (_ && _); [|lia].
  specialize (IH (i - 1) (j - 1) (m + 1)). lia.
Qed.

Lemma matchLoop_sym (fuel : nat) (w1 w2 : string) (i j m : Z) :
  matchLoop fuel w1 w2 i j m = matchLoop fuel w2 w1 j i m.
Proof.
  revert i j m. induction fuel as [|fuel IH]; intros i j m; simpl; [reflexivity|].
  rewrite (charEqb_sym (Str.at_ w1 _)), (andb_comm (0 <=? i)).
  destruct (_ && _); [apply IH|reflexivity].
Qed.

(** The loop stops by its own test before [fuel] runs out, as soon as
    [fuel] exceeds the smaller of the two indices. *)
Lemma matchLoop_fuel (f f' : nat) (w1 w2 : string) (i j m : Z) :
  Z.min i j < Z.of_nat f -> Z.min i j < Z.of_nat f' ->
  matchLoop f w1 w2 i j m = matchLoop f' w1 w2 i j m.
Proof.
  revert f' i j m. induction f as [|f IH]; intros [|f'] i j m Hf Hf'; simpl.
  - reflexivity.
  - destruct (0 <=? i) eqn:Hi, (0 <=? j) eqn:Hj; simpl; try reflexivity. lia.
  - destruct (0 <=? i) eqn:Hi, (0 <=? j) eqn:Hj; simpl; try reflexivity. lia.
  - destruct (_ && _); [|reflexivity]. apply IH; lia.
Qed.

Lemma scoreRhyme_same (w : string) : scoreRhyme w w = 0.
Proof. unfold scoreRhyme, Str.eqb. rewrite String.eqb_refl. reflexivity. Qed.

Lemma scoreRhyme_range (w1 w2 : string) : 0 <= scoreRhyme w1 w2 <= 100.
Proof.
  unfold scoreRhyme. destruct (Str.eqb w1 w2); [lia|].
  pose proof (matchLoop_ge (S (Str.len w1)) w1 w2
                (Z.of_nat (Str.len w1) - 1) (Z.of_nat (Str.len w2) - 1) 0) as Hm.
  cbv zeta.
  destruct (Z.ltb_spec 60 (matchLoop (S (Str.len w1)) w1 w2
                             (Z.of_nat (Str.len w1) - 1) (Z.of_nat (Str.len w2) - 1) 0 * 15));
    destruct (negb _);
    repeat match goal with
           | |- context [if ?b then _ else _] => destruct b
           end; lia.
Qed.

Lemma scoreRhyme_sym (w1 w2 : string) : scoreRhyme w1 w2 = scoreRhyme w2 w1.
Proof.
  unfold scoreRhyme, Str.eqb. rewrite (String.eqb_sym w2 w1).
  destruct (String.eqb w1 w2); [reflexivity|]. cbv zeta.
  rewrite (matchLoop_sym _ w2 w1).
  rewrite (matchLoop_fuel (S (Str.len w2)) (S (Str.len w1)) w1 w2) by lia.
  rewrite (charEqb_sym (Str.at_ w2 0)).
  replace (Z.abs (Z.of_nat (Str.len w2) - Z.of_nat (Str.len w1)))
    with (Z.abs (Z.of_nat (Str.len w1) - Z.of_nat (Str.len w2))) by lia.
  reflexivity.
Qed.

End Scorer.

(** ** Computations over the shared structures *)

Section Monad.

Context {A B : Type}.

Lemma bind_Returned_run (m : JS A) (k : A -> JS B) (s : Tables) (a : A) :
  outcome (m s) = Returned a ->
  bind m k s =
    mkRun (outcome (k a (final (m s)))) (final (k a (final (m s))))
      (calls (m s) ++ calls (k a (final (m s)))).
Proof. intros H. unfold bind. rewrite H. reflexivity. Qed.

Lemma bind_Returned_inv (m : JS A) (k : A -> JS B) (s : Tables) (b : B) :
  outcome (bind m k s) = Returned b ->
  exists a, outcome (m s) = Returned a /\ outcome (k a (final (m s))) = Returned b.
Proof.
  unfold bind. destruct (outcome (m s)) as [a|e]; simpl; intros H.
  - eauto.
  - discriminate.
Qed.

End Monad.

(** ** Alliteration *)

Lemma findAlliteration_returns (letter : string) (maxResults : Z) (s : Tables) :
  exists l, outcome (findAlliteration letter maxResults s) = Returned l /\
            final (findAlliteration letter maxResults s) = s.
Proof.
  unfold findAlliteration.
  destruct (indexOutOfRange _); [simpl; eauto|].
  unfold bind, readAlliterationList, readAlliteration, bind, ret, throw; simpl.
  destruct (alliterationAt s _) as [l|] eqn:E; simpl; [|eauto].
  rewrite E; simpl.
  destruct (Nat.eqb (length l) 0); simpl; [eauto|].
  rewrite E; simpl. eauto.
Qed.

(** ** Ranking *)

Section Ranking.

#[local] Open Scope nat_scope.

Lemma length_insertByScore (x : Scored) (l : list Scored) :
  length (insertByScore x l) = S (length l).
Proof.
  induction l as [|y l IH]; simpl; [reflexivity|].
  destruct (score y <=? score x)%Z; simpl; congruence.
Qed.

Lemma length_sortByScore (l : list Scored) : length (sortByScore l) = length l.
Proof.
  induction l as [|x l IH]; simpl; [reflexivity|].
  rewrite length_insertByScore. congruence.
Qed.

Lemma length_rankCandidates (w : string) (cs : list string) (maxResults : Z) :
  length (rankCandidates w cs maxResults) <= Z.to_nat maxResults.
Proof.
  unfold rankCandidates. rewrite length_map, length_take. lia.
Qed.

Lemma length_appendNew (rs ps : list string) :
  length (appendNew rs ps) <= length rs + length ps.
Proof.
  revert rs. induction ps as [|p ps IH]; intros rs; simpl; [lia|].
  destruct (includes rs p).
  - specialize (IH rs). lia.
  - specialize (IH (rs ++ [p])%list). rewrite length_app in IH. simpl in IH. lia.
Qed.

End Ranking.

(** ** Searches inside a query *)

Section Query.

#[local] Open Scope nat_scope.

Lemma searchHashIn_run (t : TableId) (k : string) (s : Tables) :
  searchHashIn t k s =
    mkRun (fst (searchHash (getTable t s) k))
      (setTable t (snd (searchHash (getTable t s) k)) s)
      [SearchHashCall t k].
Proof. unfold searchHashIn. destruct (searchHash _ _). reflexivity. Qed.

Lemma findRhymes_run (t : TableId) (w : string) (L m : Z) (s : Tables) :
  findRhymes t w L m s =
    mkRun (match fst (searchHash (getTable t s) (extractSuffix w L)) with
           | Returned cs => Returned (rankCandidates w cs m)
           | Thrown e => Thrown e
           end)
      (setTable t (snd (searchHash (getTable t s) (extractSuffix w L))) s)
      [SearchHashCall t (extractSuffix w L)].
Proof.
  unfold findRhymes, bind. rewrite searchHashIn_run. simpl.
  destruct (fst (searchHash _ _)); reflexivity.
Qed.

Lemma phoneticSearch_run (t : TableId) (w : string) (L m : Z) (s : Tables) :
  phoneticSearch t w L m s =
    mkRun (match fst (searchHash (getTable t s)
                        (extractSuffix (computePhoneticKey w) L)) with
           | Returned cs => Returned (rankCandidates w cs m)
           | Thrown e => Thrown e
           end)
      (setTable t (snd (searchHash (getTable t s)
                          (extractSuffix (computePhoneticKey w) L))) s)
      [SearchHashCall t (extractSuffix (computePhoneticKey w) L)].
Proof.
  unfold phoneticSearch, bind. rewrite searchHashIn_run. simpl.
  destruct (fst (searchHash _ _)); reflexivity.
Qed.

Lemma findAlliteration_calls (letter : string) (maxResults : Z) (s : Tables) :
  ~ searchedPhonetic (calls (findAlliteration letter maxResults s)).
Proof.
  intros [sfx Hin]. revert Hin. unfold findAlliteration.
  destruct (indexOutOfRange _); [simpl; tauto|].
  unfold bind, readAlliterationList, readAlliteration, bind, ret, throw; simpl.
  destruct (alliterationAt s _) as [l|] eqn:E; simpl.
  - rewrite E; simpl.
    destruct (Nat.eqb (length l) 0); simpl; [intuition discriminate|].
    rewrite E; simpl. intuition discriminate.
  - intuition discriminate.
Qed.

End Query.

Section QueryRun.

#[local] Open Scope nat_scope.

Lemma searchedPhonetic_app (l1 l2 : list Call) :
  searchedPhonetic (l1 ++ l2) <-> searchedPhonetic l1 \/ searchedPhonetic l2.
Proof.
  unfold searchedPhonetic. split.
  - intros [k H]. apply in_app_or in H as [H|H]; eauto.
  - intros [[k H]|[k H]]; exists k; apply in_or_app; auto.
Qed.

Lemma searchedPhonetic_nil : ~ searchedPhonetic [].
Proof. intros [k []]. Qed.

Lemma bind_calls_prefix {A B : Type} (m : JS A) (k : A -> JS B) (s : Tables) :
  exists rest, calls (bind m k s) = (calls (m s) ++ rest)%list.
Proof.
  unfold bind. destruct (outcome (m s)); simpl; eauto.
  exists []. symmetry. apply app_nil_r.
Qed.

Lemma query_run (c : ascii) (w : string) (L : Z) (s : Tables) (rs : list string) :
  outcome (findRhymes Rhyme (String c w) L 10 s) = Returned rs ->
  exists (al : list string) (s1 : Tables) (ca : list Call),
    s1 = final (findRhymes Rhyme (String c w) L 10 s) /\
    ~ searchedPhonetic ca /\
    outcome (query (String c w) L s) = outcome (queryTail (String c w) L rs al s1) /\
    final (query (String c w) L s) = final (queryTail (String c w) L rs al s1) /\
    calls (query (String c w) L s) =
      (SearchHashCall Rhyme (extractSuffix (String c w) L)
         :: ca ++ calls (queryTail (String c w) L rs al s1))%list.
Proof.
  intros Hrs.
  set (s1 := final (findRhymes Rhyme (String c w) L 10 s)).
  destruct (findAlliteration_returns (String c EmptyString) 5 s1) as (al & Hal & Hfin).
  exists al, s1, (calls (findAlliteration (String c EmptyString) 5 s1)).
  split; [reflexivity|]. split; [apply findAlliteration_calls|].
  unfold query. rewrite (bind_Returned_run _ _ _ _ Hrs). fold s1.
  change (Str.at_ (String c w) 0) with (Some c).
  rewrite (bind_Returned_run _ _ _ _ Hal). rewrite Hfin.
  fold (queryTail (String c w) L rs al). simpl.
  rewrite findRhymes_run. simpl. auto.
Qed.

Lemma queryTail_calls (w : string) (L : Z) (rs al : list string) (s : Tables) :
  searchedPhonetic (calls (queryTail w L rs al s)) <-> length rs < 3.
Proof.
  unfold queryTail. destruct (Nat.ltb_spec (length rs) 3) as [Hlt|Hge].
  - split; [auto|]. intros _.
    destruct (bind_calls_prefix
                (phoneticRhymes <- phoneticSearch Phonetic w L 7 ;;
                 ret (appendNew rs phoneticRhymes))
                (fun rhymes => ret {| rhymes := rhymes;
                                      syllables := countSyllables w;
                                      alliterations := al |}) s) as [rest ->].
    destruct (bind_calls_prefix (phoneticSearch Phonetic w L 7)
                (fun phoneticRhymes => ret (appendNew rs phoneticRhymes)) s)
      as [rest' ->].
    rewrite phoneticSearch_run. simpl. eexists. left. reflexivity.
  - split; [|lia]. simpl. intros H. exfalso. revert H. apply searchedPhonetic_nil.
Qed.

Lemma queryTail_rhymes (w : string) (L : Z) (rs al : list string) (s : Tables)
      (res : QueryResult) :
  outcome (queryTail w L rs al s) = Returned res ->
  length rs <= 10 -> length (rhymes res) <= 10.
Proof.
  unfold queryTail. intros H Hrs.
  apply bind_Returned_inv in H as (rs' & H1 & H2).
  simpl in H2. inversion H2; subst res; clear H2. simpl.
  destruct (Nat.ltb_spec (length rs) 3) as [Hlt|Hge].
  - apply bind_Returned_inv in H1 as (ps & Hp & H1).
    simpl in H1. inversion H1; subst rs'; clear H1.
    rewrite phoneticSearch_run in Hp. simpl in Hp.
    destruct (fst (searchHash _ _)) as [cs|]; [|discriminate].
    inversion Hp; subst ps; clear Hp.
    pose proof (length_appendNew rs (rankCandidates w cs 7)) as Ha.
    pose proof (length_rankCandidates w cs 7) as Hr.
    change (Z.to_nat 7) with 7 in Hr. lia.
  - simpl in H1. inversion H1; subst rs'. exact Hrs.
Qed.

Lemma findRhymes_length (t : TableId) (w : string) (L m : Z) (s : Tables)
      (rs : list string) :
  outcome (findRhymes t w L m s) = Returned rs -> length rs <= Z.to_nat m.
Proof.
  rewrite findRhymes_run. simpl.
  destruct (fst (searchHash _ _)) as [cs|]; [|discriminate].
  intros H. inversion H. apply length_rankCandidates.
Qed.

(** Whatever the tables, a query that returns has at most ten rhymes. *)
Lemma query_rhymes_bound (w : string) (L : Z) (s : Tables) (res : QueryResult) :
  outcome (query w L s) = Returned res -> length (rhymes res) <= 10.
Proof.
  intros H.
  pose proof H as H0. unfold query in H0.
  apply bind_Returned_inv in H0 as (rs & Hrs & H0).
  destruct w as [|c w].
  - apply bind_Returned_inv in H0 as (al & Hal & _). discriminate.
  - clear H0.
    destruct (query_run c w L s rs Hrs) as (al & s1 & ca & _ & _ & Ho & _ & _).
    rewrite Ho in H. apply queryTail_rhymes in H; [exact H|].
    apply findRhymes_length in Hrs. exact Hrs.
Qed.

Lemma findRhymes_wf (t : TableId) (w : string) (L m : Z) (s : Tables) :
  wfTables s ->
  (exists rs, outcome (findRhymes t w L m s) = Returned rs) /\
  wfTables (final (findRhymes t w L m s)).
Proof.
  intros [Hr Hp]. rewrite findRhymes_run. simpl.
  destruct (searchHash (getTable t s) (extractSuffix w L)) as [r T'] eqn:Hs.
  pose proof (searchHash_returns (getTable t s) (extractSuffix w L)) as Hret.
  rewrite Hs in Hret. simpl in *.
  destruct t; simpl in *.
  - destruct (Hret Hr) as [cs ->]. split; [eauto|].
    split; simpl; [eapply searchHash_wf; eauto|exact Hp].
  - destruct (Hret Hp) as [cs ->]. split; [eauto|].
    split; simpl; [exact Hr|eapply searchHash_wf; eauto].
Qed.

Lemma queryTail_returns (w : string) (L : Z) (rs al : list string) (s : Tables) :
  wfTables s -> exists res, outcome (queryTail w L rs al s) = Returned res.
Proof.
  intros Hwf. unfold queryTail.
  destruct (Nat.ltb (length rs) 3).
  - unfold bind at 1 2. rewrite phoneticSearch_run. simpl.
    pose proof (searchHash_returns (phoneticTable s)
                  (extractSuffix (computePhoneticKey w) L) (proj2 Hwf)) as [cs ->].
    simpl. eauto.
  - simpl. eauto.
Qed.

(** On well-formed tables the query of a non-empty word returns. *)
Lemma query_returns (w : string) (L : Z) (s : Tables) :
  wfTables s -> w <> EmptyString ->
  exists res, outcome (query w L s) = Returned res.
Proof.
  intros Hwf Hw. destruct w as [|c w]; [congruence|].
  destruct (findRhymes_wf Rhyme (String c w) L 10 s Hwf) as [[rs Hrs] Hwf1].
  destruct (query_run c w L s rs Hrs) as (al & s1 & ca & -> & _ & Ho & _ & _).
  rewrite Ho. apply queryTail_returns. exact Hwf1.
Qed.

End QueryRun.

(** ** The build *)

Section Build.

#[local] Open Scope nat_scope.

Lemma letterIndex_alphabetic (word : string) :
  isAlphabetic word = true ->
  exists i : Z,
    letterIndexOf (Str.toLowerCase (String.substring 0 1 word)) = Some i /\
    (0 <= i <= 25)%Z.
Proof.
  destruct word as [|c r]; [discriminate|].
  unfold isAlphabetic. cbn [allLetters]. intros H.
  apply andb_prop in H as [Hc _].
  assert (Hsub : String.substring 0 1 (String c r) = String c EmptyString).
  { destruct r; reflexivity. }
  rewrite Hsub. revert Hc.
  destruct c as [[] [] [] [] [] [] [] []]; vm_compute; intros Hc;
    try discriminate; eexists; (split; [reflexivity|split; discriminate]).
Qed.

Lemma pushAlliteration_run (i : Z) (word : string) (s : Tables) :
  wfAlliteration s -> (0 <= i <= 25)%Z ->
  exists al,
    pushAlliteration i word s =
      mkRun (Returned tt) (mkTables (rhymeTable s) (phoneticTable s) al)
        [AlliterationRead (Some i)] /\
    length al = 26.
Proof.
  intros Hwf Hi. unfold pushAlliteration, readAlliterationList, readAlliteration.
  unfold bind at 1 2. cbn [outcome final calls alliterationAt].
  destruct (Z.ltb_spec i 0) as [Hneg|_]; [lia|].
  destruct (lookup_lt_is_Some_2 (alliterationTable s) (Z.to_nat i)) as [l Hl].
  { unfold wfAlliteration in Hwf. lia. }
  rewrite Hl. simpl. eexists. split; [reflexivity|].
  rewrite length_insert. exact Hwf.
Qed.

Lemma insertHashIn_run (t : TableId) (k x : string) (s : Tables) :
  insertHashIn t k x s =
    mkRun (fst (insertHash (getTable t s) k x))
      (setTable t (snd (insertHash (getTable t s) k x)) s)
      [InsertHashCall t k x (fst (insertHash (getTable t s) k x))].
Proof. unfold insertHashIn. destruct (insertHash _ _ _). reflexivity. Qed.

(** One accepted word: the three steps of the loop body all return, and
    the rhyme table is what [insertHash] made of it. *)
Lemma addWord_run (word : string) (L : Z) (s : Tables) :
  wfTables s -> wfAlliteration s -> isAlphabetic word = true ->
  exists (b1 b2 : bool) (i : Z) (s' : Tables),
    fst (insertHash (rhymeTable s) (extractSuffix word L) word) = Returned b1 /\
    rhymeTable s' = snd (insertHash (rhymeTable s) (extractSuffix word L) word) /\
    wfTables s' /\ wfAlliteration s' /\
    addWord word L s =
      mkRun (Returned tt) s'
        [InsertHashCall Rhyme (extractSuffix word L) word (Returned b1);
         AlliterationRead (Some i);
         InsertHashCall Phonetic
           (extractSuffix (computePhoneticKey word) L) word (Returned b2)].
Proof.
  intros [Hr Hp] Ha Hw.
  destruct (insertHash_returns (rhymeTable s) (extractSuffix word L) word Hr) as [b1 Hb1].
  destruct (insertHash_returns (phoneticTable s)
              (extractSuffix (computePhoneticKey word) L) word Hp) as [b2 Hb2].
  destruct (letterIndex_alphabetic word Hw) as (i & Hi & Hrange).
  set (T1 := snd (insertHash (rhymeTable s) (extractSuffix word L) word)).
  set (T2 := snd (insertHash (phoneticTable s)
                    (extractSuffix (computePhoneticKey word) L) word)).
  set (s1 := mkTables T1 (phoneticTable s) (alliterationTable s)).
  destruct (pushAlliteration_run i word s1 Ha Hrange) as (al & Hpush & Hal).
  exists b1, b2, i, (mkTables T1 T2 al).
  split; [exact Hb1|]. split; [reflexivity|].
  split; [|split; [exact Hal|]].
  - split; cbn [rhymeTable phoneticTable]; subst T1 T2.
    + destruct (insertHash (rhymeTable s) (extractSuffix word L) word) eqn:E.
      eapply insertHash_wf; eauto.
    + destruct (insertHash (phoneticTable s) _ word) eqn:E.
      eapply insertHash_wf; eauto.
  - unfold addWord.
    assert (H1 : insertHashIn Rhyme (extractSuffix word L) word s =
                 mkRun (Returned b1) s1
                   [InsertHashCall Rhyme (extractSuffix word L) word (Returned b1)]).
    { rewrite insertHashIn_run. cbn [getTable setTable]. rewrite Hb1. reflexivity. }
    assert (H2 : insertHashIn Phonetic (extractSuffix (computePhoneticKey word) L) word
                   (mkTables T1 (phoneticTable s) al) =
                 mkRun (Returned b2) (mkTables T1 T2 al)
                   [InsertHashCall Phonetic
                      (extractSuffix (computePhoneticKey word) L) word (Returned b2)]).
    { rewrite insertHashIn_run. cbn [getTable setTable rhymeTable phoneticTable
                                     alliterationTable].
      rewrite Hb2. reflexivity. }
    rewrite (bind_Returned_run _ _ _ b1) by (rewrite H1; reflexivity).
    rewrite H1. cbn beta iota delta [outcome final calls]. rewrite Hi.
    rewrite (bind_Returned_run _ _ _ tt) by (rewrite Hpush; reflexivity).
    rewrite Hpush. cbn beta iota delta [outcome final calls rhymeTable phoneticTable s1].
    rewrite (bind_Returned_run _ _ _ b2) by (rewrite H2; reflexivity).
    rewrite H2. reflexivity.
Qed.

End Build.

Section BuildLoop.

#[local] Open Scope nat_scope.

Lemma insertHash_bound_mono (T T' : HashTable) (k x k0 : string) (r : Outcome bool) :
  insertHash T k x = (r, T') -> bound T k0 -> bound T' k0.
Proof.
  intros H [j (e & Hj & Hk0)].
  destruct (insertHash_cases _ _ _ _ _ H) as [[_ ->]|[_ (a & _ & _ & Hp)]].
  - exists j, e. auto.
  - destruct (placedAt_lookup _ _ _ _ _ Hp) as (e' & He' & Hk & _ & Hother).
    destruct (decide (j = N.to_nat (probeIndex T a (computeHash k (size T)))))
      as [->|Hne].
    + exists (N.to_nat (probeIndex T a (computeHash k (size T)))), e'.
      split; [exact He'|].
      destruct Hp as [[Hnull _]|(e0 & He0 & Hke0 & _)]; congruence.
    + exists j, e. rewrite Hother by exact Hne. auto.
Qed.

Lemma insertHash_bound_new (T T' : HashTable) (k x : string) :
  insertHash T k x = (Returned true, T') -> bound T' k.
Proof.
  intros H.
  destruct (insertHash_cases _ _ _ _ _ H) as [[Hr _]|[_ (a & _ & _ & Hp)]];
    [congruence|].
  destruct (placedAt_lookup _ _ _ _ _ Hp) as (e' & He' & Hk & _ & _).
  eexists; exists e'; eauto.
Qed.

Lemma accepted_alphabetic (line word : string) :
  accepted line = Some word -> isAlphabetic word = true.
Proof.
  unfold accepted. destruct (Str.eqb line EmptyString); [discriminate|].
  destruct (Nat.ltb 0 (Str.len (trim line))); simpl; [|discriminate].
  destruct (isAlphabetic (trim line)) eqn:E; [|discriminate].
  intros H. inversion H; subst. exact E.
Qed.

Lemma buildLoop_cons (line : string) (rest : list string) (L : Z) (wc : N) :
  buildLoop (line :: rest) L wc =
    match accepted line with
    | Some word => _ <- addWord word L ;; buildLoop rest L (wc + 1)
    | None => buildLoop rest L wc
    end.
Proof.
  unfold accepted. simpl.
  destruct (Str.eqb line EmptyString); [reflexivity|].
  destruct (Nat.ltb 0 (Str.len (trim line)) && isAlphabetic (trim line)); reflexivity.
Qed.

(** The loop over the lines returns, counts every accepted word, keeps
    the structures well formed, and, unless some insert returned
    [false], leaves every key it was given bound in the rhyme table. *)
Lemma buildLoop_run (lines : list string) (L : Z) :
  forall (s : Tables) (wc : N),
    wfTables s -> wfAlliteration s ->
    outcome (buildLoop lines L wc s)
      = Returned (wc + N.of_nat (length (acceptedWords lines)))%N /\
    wfTables (final (buildLoop lines L wc s)) /\
    wfAlliteration (final (buildLoop lines L wc s)) /\
    size (rhymeTable (final (buildLoop lines L wc s))) = size (rhymeTable s) /\
    (existsb isFailedInsert (calls (buildLoop lines L wc s)) = false ->
     forall k,
       bound (rhymeTable s) k \/
       k ∈ map (fun w => extractSuffix w L) (acceptedWords lines) ->
       bound (rhymeTable (final (buildLoop lines L wc s))) k).
Proof.
  induction lines as [|line rest IH]; intros s wc Hwf Ha.
  - cbn [buildLoop ret outcome final calls acceptedWords length map].
    split; [f_equal; lia|]. split; [exact Hwf|]. split; [exact Ha|].
    split; [reflexivity|].
    intros _ k [Hk|Hk]; [exact Hk|]. apply elem_of_nil in Hk. contradiction.
  - rewrite buildLoop_cons. cbn [acceptedWords].
    destruct (accepted line) as [word|] eqn:Hacc.
    + pose proof (accepted_alphabetic _ _ Hacc) as Hw.
      destruct (addWord_run word L s Hwf Ha Hw)
        as (b1 & b2 & i & s' & Hb1 & Hs' & Hwf' & Ha' & Hrun).
      rewrite (bind_Returned_run _ _ _ tt) by (rewrite Hrun; reflexivity).
      rewrite Hrun. cbn [outcome final calls].
      destruct (IH s' (wc + 1)%N Hwf' Ha') as (Ho & Hwf2 & Ha2 & Hsize & Hkeys).
      destruct (insertHash (rhymeTable s) (extractSuffix word L) word)
        as [r1 T1] eqn:Hins.
      simpl in Hb1, Hs'. subst r1.
      split; [rewrite Ho; f_equal; simpl length; lia|].
      split; [exact Hwf2|]. split; [exact Ha2|].
      split; [rewrite Hsize, Hs'; eapply insertHash_size; eauto|].
      intros Hnofail k Hk.
      cbn [app existsb isFailedInsert] in Hnofail.
      destruct b1; [|discriminate]. destruct b2; [|discriminate].
      simpl in Hnofail.
      apply Hkeys; [exact Hnofail|].
      destruct Hk as [Hk|Hk].
      * left. rewrite Hs'. eapply insertHash_bound_mono; eauto.
      * cbn [map] in Hk. apply elem_of_cons in Hk as [->|Hk].
        -- left. rewrite Hs'. eapply insertHash_bound_new; eauto.
        -- right. exact Hk.
    + apply IH; assumption.
Qed.

Lemma bound_keysOf (T : HashTable) (k : string) :
  bound T k -> k ∈ keysOf (table T).
Proof.
  intros (j & e & Hj & Hk). revert j Hj.
  induction (table T) as [|o l IH]; intros j Hj.
  - rewrite lookup_nil in Hj. discriminate.
  - destruct j as [|j]; simpl in Hj.
    + inversion Hj; subst o. simpl. rewrite Hk. apply elem_of_cons. auto.
    + specialize (IH j Hj). destruct o; simpl; [apply elem_of_cons; auto|exact IH].
Qed.

Lemma length_keysOf (l : list (option Entry)) : length (keysOf l) <= length l.
Proof. induction l as [|[e|] l IH]; simpl; lia. Qed.

(** A table has room for no more keys than it has slots. *)
Lemma bound_pigeonhole (T : HashTable) (ks : list string) :
  NoDup ks -> (forall k, k ∈ ks -> bound T k) -> length ks <= length (table T).
Proof.
  intros Hnd Hb.
  assert (Hsub : ks ⊆+ keysOf (table T)).
  { apply NoDup_submseteq; [exact Hnd|]. intros k Hk. apply bound_keysOf, Hb, Hk. }
  apply submseteq_length in Hsub. pose proof (length_keysOf (table T)). lia.
Qed.

Lemma wfTables_new : wfTables newTables /\ wfAlliteration newTables.
Proof.
  repeat split; unfold wfTable, wfAlliteration; simpl; apply length_replicate.
Qed.

(** The build returns its usual result for every word list. *)
Lemma buildRun_returns (text : string) (L : Z) :
  outcome (buildRun text L)
    = Returned (N.of_nat (length (acceptedWords (splitLines text)))) /\
  wfTables (final (buildRun text L)).
Proof.
  destruct wfTables_new as [Hwf Ha].
  destruct (buildLoop_run (splitLines text) L newTables 0%N Hwf Ha)
    as (Ho & Hwf' & _).
  unfold buildRun. rewrite Ho. split; [reflexivity|exact Hwf'].
Qed.

Lemma buildPoetryAssistant_returns (text : string) (L : Z) :
  exists r : BuildResult,
    buildPoetryAssistant text L = Returned r /\
    wordCount (stats r) = N.of_nat (length (acceptedWords (splitLines text))).
Proof.
  unfold buildPoetryAssistant.
  destruct (buildRun_returns text L) as [Ho _]. rewrite Ho.
  eexists. split; reflexivity.
Qed.

(** The tables of the build's result are the structures at the end of
    its run. *)
Lemma buildPoetryAssistant_tables (text : string) (L : Z) (r : BuildResult) :
  buildPoetryAssistant text L = Returned r -> tables r = final (buildRun text L).
Proof.
  unfold buildPoetryAssistant.
  destruct (outcome (buildRun text L)); intros H; inversion H. reflexivity.
Qed.

(** More distinct keys than slots: some insert of the build fails. *)
Lemma buildRun_overflow (text : string) (L : Z) :
  NoDup (map (fun w => extractSuffix w L) (acceptedWords (splitLines text))) ->
  N.to_nat tableSize < length (acceptedWords (splitLines text)) ->
  someInsertFailed (calls (buildRun text L)).
Proof.
  intros Hnd Hlen. unfold someInsertFailed.
  destruct (existsb isFailedInsert (calls (buildRun text L))) eqn:Hf; [reflexivity|].
  exfalso.
  destruct wfTables_new as [Hwf Ha].
  destruct (buildLoop_run (splitLines text) L newTables 0%N Hwf Ha)
    as (_ & [Hwf' _] & _ & Hsize & Hkeys).
  fold (buildRun text L) in Hwf', Hsize, Hkeys.
  pose proof (bound_pigeonhole (rhymeTable (final (buildRun text L))) _ Hnd
                (fun k Hk => Hkeys Hf k (or_intror Hk))) as Hp.
  unfold wfTable in Hwf'. rewrite Hwf', Hsize in Hp.
  rewrite length_map in Hp. change (size (rhymeTable newTables)) with tableSize in Hp.
  lia.
Qed.

End BuildLoop.

Section Distinct.

#[local] Open Scope N_scope.

Lemma increasingb_head (x : N) (l : list N) :
  increasingb (x :: l) = true -> forall y, y ∈ l -> x < y.
Proof.
  revert x. induction l as [|z l IH]; intros x H y Hy.
  - apply elem_of_nil in Hy. contradiction.
  - cbn [increasingb] in H. apply andb_prop in H as [Hxz Hl].
    apply N.ltb_lt in Hxz.
    apply elem_of_cons in Hy as [->|Hy]; [exact Hxz|].
    specialize (IH z Hl y Hy). lia.
Qed.

Lemma increasingb_tail (x : N) (l : list N) :
  increasingb (x :: l) = true -> increasingb l = true.
Proof.
  destruct l as [|z l]; [reflexivity|].
  cbn [increasingb]. intros H. apply andb_prop in H as [_ H]. exact H.
Qed.

(** Words whose codes go up strictly are pairwise distinct. *)
Lemma increasingb_NoDup (f : string -> N) (l : list string) :
  increasingb (map f l) = true -> NoDup l.
Proof.
  induction l as [|w l IH]; intros H.
  - apply NoDup_nil_2.
  - cbn [map] in H. apply NoDup_cons. split.
    + intros Hin.
      assert (Hf : f w ∈ map f l).
      { clear -Hin. induction Hin; cbn [map]; apply elem_of_cons; auto. }
      pose proof (increasingb_head _ _ H _ Hf). lia.
    + apply IH. eapply increasingb_tail; eauto.
Qed.

End Distinct.

(** The word list [overfullText] holds 6578 words with 6578 suffixes. *)
Lemma overfullText_distinct :
  NoDup (map (fun w => extractSuffix w 3) (acceptedWords (splitLines overfullText))).
Proof.
  apply (increasingb_NoDup codeOf). vm_compute. reflexivity.
Qed.

Lemma overfullText_length :
  (N.to_nat tableSize < length (acceptedWords (splitLines overfullText)))%nat.
Proof.
  apply Nat.ltb_lt. vm_compute. reflexivity.
Qed.

(** * The claims *)

(** C1 (the code departs from the claim).  The claim says that [searchHash]
    leaves the table, its counter of probe steps included, exactly as it
    found it.  In the rhyme table built from the words "sing" and "pupil"
    with suffix length 3 the keys "ing" and "pil" collide: the search for
    "pil" returns its word and leaves [probeSteps] at 1 where it was 0, so
    the table after the search is not the table before it. *)
Theorem searchHash_bumps_probeSteps :
  fst (searchHash (rhymeTable collidingTables) "pil") = Returned ["pupil"] /\
  probeSteps (rhymeTable collidingTables) = 0 /\
  probeSteps (snd (searchHash (rhymeTable collidingTables) "pil")) = 1 /\
  snd (searchHash (rhymeTable collidingTables) "pil") <> rhymeTable collidingTables.
Proof.
  assert (H0 : probeSteps (rhymeTable collidingTables) = 0) by (vm_compute; reflexivity).
  assert (H1 : probeSteps (snd (searchHash (rhymeTable collidingTables) "pil")) = 1)
    by (vm_compute; reflexivity).
  split; [vm_compute; reflexivity|]. split; [exact H0|]. split; [exact H1|].
  intros Heq. rewrite Heq, H0 in H1. clear Heq. discriminate H1.
Qed.

(** C2 (as stated, refuted).  The claim says that a failed insert makes the
    build report a failure.  The word list [overfullText] has 6578 words
    with 6578 different suffixes of length three, one more than the rhyme
    table has slots: some insert returns [false], and the build still
    returns its usual result. *)
Lemma build_drops_insert_failure :
  ~ (someInsertFailed (calls (buildRun overfullText 3)) ->
     reportsFailure (buildPoetryAssistant overfullText 3)).
Proof.
  intros H.
  destruct H as [e He].
  - apply buildRun_overflow; [exact overfullText_distinct|exact overfullText_length].
  - destruct (buildPoetryAssistant_returns overfullText 3) as (r & Hr & _).
    rewrite Hr in He. discriminate He.
Qed.

(** C2 (amended).  For every word list and suffix length the build returns
    its usual result, whatever its calls of [insertHash] returned, and its
    [wordCount] counts every accepted word, placed or not. *)
Theorem buildPoetryAssistant_always_returns :
  forall (wordlistText : string) (suffixLength : Z),
  exists r : BuildResult,
    buildPoetryAssistant wordlistText suffixLength = Returned r /\
    wordCount (stats r) = N.of_nat (length (acceptedWords (splitLines wordlistText))).
Proof.
  intros text L. apply buildPoetryAssistant_returns.
Qed.

(** C3 (as stated, refuted).  The claim says that for some built tables
    (the structures [final (buildRun _ _)] that a build returns), input
    word and suffix length the list of rhymes that [query] returns is
    longer than 10.  There are none. *)
Lemma rhymes_never_exceed_ten :
  ~ exists (wordlistText : string) (builtLength : Z) (inputWord : string)
           (suffixLength : Z) (res : QueryResult),
      outcome (query inputWord suffixLength (final (buildRun wordlistText builtLength)))
        = Returned res /\
      (10 < length (rhymes res))%nat.
Proof.
  intros (text & Lb & w & L & res & Hres & Hlen).
  apply query_rhymes_bound in Hres. lia.
Qed.

(** C3 (amended).  For all built tables, every non-empty input word and
    every suffix length, [query] returns, and its list of rhymes, phonetic
    additions included, has at most 10 entries. *)
Theorem query_rhymes_at_most_ten :
  forall (wordlistText : string) (builtLength : Z) (inputWord : string)
         (suffixLength : Z),
    inputWord <> EmptyString ->
    exists res : QueryResult,
      outcome (query inputWord suffixLength (final (buildRun wordlistText builtLength)))
        = Returned res /\
      (length (rhymes res) <= 10)%nat.
Proof.
  intros text Lb w L Hw.
  destruct (buildRun_returns text Lb) as [_ Hwf].
  destruct (query_returns w L _ Hwf Hw) as [res Hres].
  exists res. split; [exact Hres|]. eapply query_rhymes_bound; eauto.
Qed.

Lemma query_rhymes_at_most_ten_witness :
  "cat" <> EmptyString /\
  exists res : QueryResult,
    outcome (query "cat" 2 (final (buildRun threeRhymesText 2))) = Returned res /\
    (length (rhymes res) <= 10)%nat.
Proof.
  split; [discriminate|].
  apply (query_rhymes_at_most_ten threeRhymesText 2 "cat" 2). discriminate.
Defined.

(** C4.  For all built tables, every non-empty input word and every suffix
    length: the orthographic search returns a list [rs] of rhymes, and
    [query] calls [searchHash] on the phonetic table exactly when [rs] has
    fewer than 3 entries; so it does with exactly 2, and does not with
    exactly 3. *)
Theorem phonetic_fallback_trigger :
  forall (wordlistText : string) (builtLength : Z) (inputWord : string)
         (suffixLength : Z),
    inputWord <> EmptyString ->
    exists rs : list string,
      outcome (findRhymes Rhyme inputWord suffixLength 10
                 (final (buildRun wordlistText builtLength))) = Returned rs /\
      (searchedPhonetic
         (calls (query inputWord suffixLength (final (buildRun wordlistText builtLength))))
       <-> (length rs < 3)%nat) /\
      (length rs = 2%nat ->
       searchedPhonetic
         (calls (query inputWord suffixLength (final (buildRun wordlistText builtLength))))) /\
      (length rs = 3%nat ->
       ~ searchedPhonetic
           (calls (query inputWord suffixLength (final (buildRun wordlistText builtLength))))).
Proof.
  intros text Lb w L Hw.
  destruct (buildRun_returns text Lb) as [_ Hwf].
  set (s := final (buildRun text Lb)) in *.
  destruct w as [|c w]; [congruence|].
  destruct (findRhymes_wf Rhyme (String c w) L 10 s Hwf) as [[rs Hrs] _].
  exists rs. split; [exact Hrs|].
  destruct (query_run c w L s rs Hrs) as (al & s1 & ca & _ & Hca & _ & _ & Hcalls).
  assert (Hiff : searchedPhonetic (calls (query (String c w) L s))
                 <-> (length rs < 3)%nat).
  { rewrite Hcalls.
    change (SearchHashCall Rhyme (extractSuffix (String c w) L)
              :: ca ++ calls (queryTail (String c w) L rs al s1))%list
      with ([SearchHashCall Rhyme (extractSuffix (String c w) L)]
              ++ ca ++ calls (queryTail (String c w) L rs al s1))%list.
    rewrite !searchedPhonetic_app, queryTail_calls.
    split; [|tauto].
    intros [[k [Hk|[]]]|[Hk|Hk]]; [discriminate|contradiction|exact Hk]. }
  split; [exact Hiff|]. split.
  - intros H2. apply Hiff. lia.
  - intros H3 Hs. apply Hiff in Hs. lia.
Qed.

Lemma phonetic_fallback_trigger_witness :
  "cat" <> EmptyString /\
  exists rs : list string,
    outcome (findRhymes Rhyme "cat" 2 10 (final (buildRun twoRhymesText 2)))
      = Returned rs /\
    (searchedPhonetic (calls (query "cat" 2 (final (buildRun twoRhymesText 2))))
     <-> (length rs < 3)%nat) /\
    (length rs = 2%nat ->
     searchedPhonetic (calls (query "cat" 2 (final (buildRun twoRhymesText 2))))) /\
    (length rs = 3%nat ->
     ~ searchedPhonetic (calls (query "cat" 2 (final (buildRun twoRhymesText 2))))).
Proof.
  split; [discriminate|].
  apply (phonetic_fallback_trigger twoRhymesText 2 "cat" 2). discriminate.
Defined.

(** The two cases of C4 on concrete word lists: "cat" has exactly two
    rhymes in the first and exactly three in the second. *)
Example fallback_with_two_rhymes :
  outcome (findRhymes Rhyme "cat" 2 10 (final (buildRun twoRhymesText 2)))
    = Returned ["hat"; "bat"] /\
  calls (query "cat" 2 (final (buildRun twoRhymesText 2)))
    = [SearchHashCall Rhyme "at"; AlliterationRead (Some 2%Z);
       AlliterationRead (Some 2%Z); AlliterationRead (Some 2%Z);
       SearchHashCall Phonetic "vt"].
Proof. split; vm_compute; reflexivity. Qed.

Example no_fallback_with_three_rhymes :
  outcome (findRhymes Rhyme "cat" 2 10 (final (buildRun threeRhymesText 2)))
    = Returned ["hat"; "bat"; "mat"] /\
  calls (query "cat" 2 (final (buildRun threeRhymesText 2)))
    = [SearchHashCall Rhyme "at"; AlliterationRead (Some 2%Z);
       AlliterationRead (Some 2%Z); AlliterationRead (Some 2%Z)].
Proof. split; vm_compute; reflexivity. Qed.

(** C5 (as stated, refuted).  [computePhoneticKey("knight")] is not
    "nVt". *)
Lemma knight_key_is_not_nVt : computePhoneticKey "knight" <> "nVt".
Proof. vm_compute. discriminate. Qed.

(** C5 (amended).  [computePhoneticKey("knight")] returns "NVt": the rule
    for "kn" puts a capital "N", and the normalisation copies it. *)
Theorem knight_key : computePhoneticKey "knight" = "NVt".
Proof. vm_compute. reflexivity. Qed.

(** C6.  For every state [T] of a table (the reachable ones among them),
    every key [k] and every word [x]: when [insertHash(T, k, x)] succeeds,
    [searchHash] with [k] on the resulting table returns a list that
    contains [x]. *)
Theorem insert_search_roundtrip :
  forall (T T' : HashTable) (k x : string),
    insertHash T k x = (Returned true, T') ->
    exists ws : list string,
      fst (searchHash T' k) = Returned ws /\ x ∈ ws.
Proof. exact insert_then_search. Qed.

Lemma insert_search_roundtrip_witness :
  insertHash (newHashTable 7) "at" "cat" = (Returned true, oneKeyTable) /\
  exists ws : list string,
    fst (searchHash oneKeyTable "at") = Returned ws /\ "cat" ∈ ws.
Proof.
  split; [reflexivity|].
  apply (insert_search_roundtrip (newHashTable 7) oneKeyTable "at" "cat"). reflexivity.
Defined.

(** C7.  In every state of a table that is reachable from a new table by
    calls of [insertHash], two slots bound to the same key are the same
    slot. *)
Theorem one_bucket_per_key :
  forall (T : HashTable) (i j : nat) (e1 e2 : Entry),
    Reachable T ->
    table T !! i = Some (Some e1) ->
    table T !! j = Some (Some e2) ->
    suffix e1 = suffix e2 ->
    i = j.
Proof.
  intros T i j e1 e2 Hreach. apply ProbeInvariant_unique.
  apply Reachable_ProbeInvariant. exact Hreach.
Qed.

Lemma one_bucket_per_key_witness :
  Reachable oneKeyTable /\
  table oneKeyTable !! 1%nat = Some (Some {| suffix := "at"; words := ["cat"] |}) /\
  1%nat = 1%nat.
Proof.
  assert (Hreach : Reachable oneKeyTable).
  { apply (Reachable_insert (newHashTable 7) oneKeyTable "at" "cat" (Returned true)).
    - apply Reachable_new.
    - reflexivity. }
  split; [exact Hreach|]. split; [reflexivity|].
  apply (one_bucket_per_key oneKeyTable 1 1
           {| suffix := "at"; words := ["cat"] |}
           {| suffix := "at"; words := ["cat"] |} Hreach);
    reflexivity.
Defined.

(** C8.  [scoreRhyme] returns an integer between 0 and 100 for every pair
    of words; 100 = 60 + 20 + 20 is attained; and a word scores 0 against
    itself. *)
Theorem scoreRhyme_bounds :
  (forall w1 w2 : string, (0 <= scoreRhyme w1 w2 <= 100)%Z) /\
  (exists w1 w2 : string, scoreRhyme w1 w2 = 100%Z) /\
  (forall w : string, scoreRhyme w w = 0%Z).
Proof.
  split; [exact scoreRhyme_range|]. split; [|exact scoreRhyme_same].
  exists "light", "night". vm_compute. reflexivity.
Qed.

(** C9.  [scoreRhyme] is symmetric: two different words score the same in
    either order. *)
Theorem scoreRhyme_symmetric :
  forall w1 w2 : string, w1 <> w2 -> scoreRhyme w1 w2 = scoreRhyme w2 w1.
Proof. intros w1 w2 _. apply scoreRhyme_sym. Qed.

Lemma scoreRhyme_symmetric_witness :
  "cat" <> "hatter" /\ scoreRhyme "cat" "hatter" = scoreRhyme "hatter" "cat".
Proof.
  split; [discriminate|].
  apply (scoreRhyme_symmetric "cat" "hatter"). discriminate.
Defined.

(** C10.  When the first character of the lower-cased [letter] is not one
    of a to z, [findAlliteration] returns the empty list, for every state
    of the structures and every [maxResults], and it does so without a
    single read of the alliteration array: the run has no calls at all. *)
Theorem findAlliteration_non_letter :
  forall (s : Tables) (letter : string) (maxResults : Z) (c : ascii),
    Str.at_ (Str.toLowerCase letter) 0 = Some c ->
    N_of_ascii c < 97 \/ 122 < N_of_ascii c ->
    findAlliteration letter maxResults s = mkRun (Returned []) s [].
Proof.
  intros s letter maxResults c Hc Hrange.
  assert (Hindex : letterIndexOf (Str.toLowerCase letter)
                   = Some (Z.of_N (N_of_ascii c) - 97)%Z).
  { unfold letterIndexOf, Str.charCodeAt. unfold Str.at_ in Hc. rewrite Hc. reflexivity. }
  unfold findAlliteration. cbv zeta. rewrite Hindex.
  assert (Hout : indexOutOfRange (Some (Z.of_N (N_of_ascii c) - 97)%Z) = true).
  { unfold indexOutOfRange. apply orb_true_iff.
    destruct Hrange as [Hlo|Hhi]; [left; apply Z.ltb_lt|right; apply Z.ltb_lt]; lia. }
  rewrite Hout. reflexivity.
Qed.

Lemma findAlliteration_non_letter_witness :
  Str.at_ (Str.toLowerCase "7") 0 = Some "7"%char /\
  (N_of_ascii "7" < 97 \/ 122 < N_of_ascii "7") /\
  findAlliteration "7" 5 collidingTables = mkRun (Returned []) collidingTables [].
Proof.
  split; [reflexivity|]. split; [left; reflexivity|].
  apply (findAlliteration_non_letter collidingTables "7" 5 "7"%char).
  - reflexivity.
  - left. reflexivity.
Defined.

(** * Further properties *)

(** ** The hash table: probing *)

Section Probing.

#[local] Open Scope nat_scope.

(** The probe sequence in closed form. *)
Lemma probeIndex_closed (T : HashTable) (a : nat) (index : N) :
  (index < size T)%N ->
  probeIndex T a index = ((index + N.of_nat a) mod size T)%N.
Proof.
  revert index. induction a as [|a IH]; intros index Hi.
  - simpl. rewrite N.add_0_r. symmetry. apply N.mod_small. exact Hi.
  - cbn [probeIndex]. rewrite IH by (apply N.mod_lt; lia).
    rewrite N.Div0.add_mod_idemp_l. f_equal. lia.
Qed.

(** The probe sequence comes back to its start after [size] steps. *)
Lemma probeIndex_period (T : HashTable) (a : nat) (index : N) :
  (index < size T)%N ->
  probeIndex T (a + N.to_nat (size T)) index = probeIndex T a index.
Proof.
  intros Hi. rewrite !probeIndex_closed by exact Hi.
  replace (index + N.of_nat (a + N.to_nat (size T)))%N
    with (index + N.of_nat a + 1 * size T)%N by lia.
  apply N.Div0.mod_add.
Qed.

(** Every slot is on the probe sequence, within [size] steps. *)
Lemma probeIndex_covers (T : HashTable) (index : N) (j : nat) :
  (index < size T)%N -> j < N.to_nat (size T) ->
  exists a, a < N.to_nat (size T) /\ N.to_nat (probeIndex T a index) = j.
Proof.
  intros Hi Hj.
  exists (N.to_nat ((N.of_nat j + size T - index) mod size T)).
  assert (Hlt : ((N.of_nat j + size T - index) mod size T < size T)%N)
    by (apply N.mod_lt; lia).
  split; [lia|].
  rewrite probeIndex_closed by exact Hi.
  rewrite N2Nat.id, N.Div0.add_mod_idemp_r.
  replace (index + (N.of_nat j + size T - index))%N
    with (N.of_nat j + 1 * size T)%N by lia.
  rewrite N.Div0.mod_add, N.mod_small by lia. lia.
Qed.

(** An insert that returns [false] has found a different key in each of
    the slots it probed. *)
Lemma insertLoop_false (fuel : nat) (T T' : HashTable) (k x : string) (index : N) :
  insertLoop fuel T k x index = (Returned false, T') ->
  forall a, a < fuel -> otherKeyAt T (N.to_nat (probeIndex T a index)) k.
Proof.
  revert index. induction fuel as [|fuel IH]; intros index H a Ha; [lia|].
  simpl in H. unfold slot in H.
  destruct (table T !! N.to_nat index) as [[e|]|] eqn:Hs; try discriminate.
  destruct (Str.eqb (suffix e) k) eqn:Hk; [discriminate|].
  apply Str_eqb_neq in Hk.
  destruct a as [|a]; simpl.
  - exists e. auto.
  - apply (IH _ H). lia.
Qed.

End Probing.

Section SearchResults.

#[local] Open Scope nat_scope.

(** What a search returns is empty or the list of a slot bound to the key. *)
Lemma searchLoop_result (fuel : nat) (T : HashTable) (k : string) (index : N)
      (ws : list string) :
  fst (searchLoop fuel T k index) = Returned ws ->
  ws = [] \/ exists j e, table T !! j = Some (Some e) /\ suffix e = k /\ ws = words e.
Proof.
  revert T index. induction fuel as [|fuel IH]; intros T index H; simpl in H.
  - inversion H. auto.
  - unfold slot in H.
    destruct (table T !! N.to_nat index) as [[e|]|] eqn:Hs.
    + destruct (Str.eqb (suffix e) k) eqn:Hk.
      * apply Str_eqb_eq in Hk. inversion H; subst ws. right. eauto.
      * apply IH in H. exact H.
    + inversion H. auto.
    + discriminate.
Qed.

(** A search returns the empty list at the first empty slot. *)
Lemma searchLoop_stops (fuel : nat) (T : HashTable) (k : string) (index : N) (a : nat) :
  a < fuel ->
  (forall a', a' < a -> otherKeyAt T (N.to_nat (probeIndex T a' index)) k) ->
  table T !! N.to_nat (probeIndex T a index) = Some None ->
  fst (searchLoop fuel T k index) = Returned [].
Proof.
  revert T index a. induction fuel as [|fuel IH]; intros T index a Ha Hbefore Hat.
  - lia.
  - simpl. unfold slot. destruct a as [|a].
    + simpl in Hat. rewrite Hat. reflexivity.
    + destruct (Hbefore 0 ltac:(lia)) as (e0 & He0 & Hne). simpl in He0.
      rewrite He0. apply Str_eqb_neq in Hne. rewrite Hne.
      apply (IH (bumpProbeSteps T) _ a); [lia| |].
      * intros a' Ha'. rewrite (probeIndex_size (bumpProbeSteps T) T) by reflexivity.
        apply (Hbefore (S a')). lia.
      * rewrite (probeIndex_size (bumpProbeSteps T) T) by reflexivity. exact Hat.
Qed.

Lemma bound_dec (T : HashTable) (k : string) : bound T k \/ ~ bound T k.
Proof.
  unfold bound, boundAt. induction (table T) as [|o l IH].
  - right. intros (j & e & Hj & _). rewrite lookup_nil in Hj. discriminate.
  - destruct IH as [(j & e & Hj & Hk)|Hno].
    + left. exists (S j), e. auto.
    + destruct o as [e|].
      * destruct (string_dec (suffix e) k) as [Hk|Hk].
        -- left. exists 0, e. auto.
        -- right. intros ([|j] & e' & Hj & Hk'); simpl in Hj.
           ++ congruence.
           ++ apply Hno. eauto.
      * right. intros ([|j] & e' & Hj & Hk'); simpl in Hj.
        -- discriminate.
        -- apply Hno. eauto.
Qed.

(** Under the invariant, the slot of a key is reached within [size] steps. *)
Lemma ProbeInvariant_bounded (T : HashTable) (j : nat) (e : Entry) :
  wfTable T -> ProbeInvariant T -> table T !! j = Some (Some e) ->
  exists a, a < N.to_nat (size T) /\
    N.to_nat (probeIndex T a (computeHash (suffix e) (size T))) = j /\
    forall a', a' < a ->
      otherKeyAt T (N.to_nat (probeIndex T a' (computeHash (suffix e) (size T)))) (suffix e).
Proof.
  intros Hwf Hinv Hj.
  destruct (Hinv _ _ Hj) as (a & Ha & Hbefore).
  exists a. split; [|auto].
  pose proof (lookup_lt_Some _ _ _ Hj) as Hlt. unfold wfTable in Hwf.
  assert (Hh : (computeHash (suffix e) (size T) < size T)%N)
    by (apply computeHash_lt; lia).
  destruct (Nat.lt_ge_cases a (N.to_nat (size T))) as [Hok|Hbig]; [exact Hok|].
  exfalso.
  pose proof (probeIndex_period T (a - N.to_nat (size T)) _ Hh) as Hp.
  replace (a - N.to_nat (size T) + N.to_nat (size T)) with a in Hp by lia.
  destruct (Hbefore (a - N.to_nat (size T)) ltac:(lia)) as (e0 & He0 & Hne).
  rewrite <- Hp, Ha in He0. congruence.
Qed.

(** In a reachable state the search for the key of a bound slot returns the
    list of that slot, and the search for an unbound key returns []. *)
Lemma searchHash_bound (T : HashTable) (j : nat) (e : Entry) :
  wfTable T -> ProbeInvariant T -> table T !! j = Some (Some e) ->
  fst (searchHash T (suffix e)) = Returned (words e).
Proof.
  intros Hwf Hinv Hj.
  destruct (ProbeInvariant_bounded T j e Hwf Hinv Hj) as (a & Ha & Haj & Hbefore).
  unfold searchHash. apply (searchLoop_finds _ _ _ _ a); auto.
  rewrite Haj. exact Hj.
Qed.

Lemma searchHash_unbound (T : HashTable) (k : string) :
  wfTable T -> ~ bound T k -> fst (searchHash T k) = Returned [].
Proof.
  intros Hwf Hno.
  destruct (searchHash_returns T k Hwf) as [ws Hws]. rewrite Hws.
  apply searchLoop_result in Hws as [->|(j & e & Hj & Hk & _)]; [reflexivity|].
  exfalso. apply Hno. exists j, e. auto.
Qed.

End SearchResults.

Section KeysAndCounts.

#[local] Open Scope nat_scope.

Lemma keysOf_replicate_None (n : nat) : keysOf (replicate n None) = [].
Proof. induction n as [|n IH]; simpl; auto. Qed.

Lemma length_keysOf_bind (l : list (option Entry)) (j : nat) (e : Entry) :
  l !! j = Some None ->
  length (keysOf (<[j := Some e]> l)) = S (length (keysOf l)).
Proof.
  revert j. induction l as [|o l IH]; intros j Hj.
  - rewrite lookup_nil in Hj. discriminate.
  - destruct j as [|j]; simpl in Hj.
    + inversion Hj; subst o. reflexivity.
    + specialize (IH j Hj). destruct o; simpl; rewrite IH; reflexivity.
Qed.

Lemma length_keysOf_rebind (l : list (option Entry)) (j : nat) (e0 e : Entry) :
  l !! j = Some (Some e0) ->
  length (keysOf (<[j := Some e]> l)) = length (keysOf l).
Proof.
  revert j. induction l as [|o l IH]; intros j Hj.
  - rewrite lookup_nil in Hj. discriminate.
  - destruct j as [|j]; simpl in Hj.
    + inversion Hj; subst o. reflexivity.
    + specialize (IH j Hj). destruct o; simpl; rewrite IH; reflexivity.
Qed.

Lemma placedAt_keys (T T' : HashTable) (j : nat) (k x : string) :
  placedAt T T' j k x ->
  (N.of_nat (length (keysOf (table T'))) + count T
    = N.of_nat (length (keysOf (table T))) + count T')%N /\
  probeSteps T' = probeSteps T /\
  (count T <= count T' <= count T + 1)%N.
Proof.
  intros [[Hj ->]|(e & Hj & Hk & ->)]; simpl.
  - rewrite (length_keysOf_bind _ _ _ Hj). lia.
  - rewrite (length_keysOf_rebind _ _ _ _ Hj). lia.
Qed.

Lemma placedAt_boundAt (T T' : HashTable) (j i : nat) (k x k0 : string) :
  placedAt T T' j k x -> boundAt T i k0 -> boundAt T' i k0.
Proof.
  intros Hp (e & Hi & Hk0).
  destruct (placedAt_lookup _ _ _ _ _ Hp) as (e' & He' & Hk & _ & Hother).
  destruct (decide (i = j)) as [->|Hne].
  - exists e'. split; [exact He'|].
    destruct Hp as [[Hnull _]|(e0 & He0 & Hke0 & _)]; congruence.
  - exists e. rewrite Hother by exact Hne. auto.
Qed.

Lemma placedAt_words (T T' : HashTable) (j : nat) (k x : string) :
  placedAt T T' j k x ->
  exists e', table T' !! j = Some (Some e') /\ suffix e' = k /\
    ((table T !! j = Some None /\ words e' = [x]) \/
     (exists e, table T !! j = Some (Some e) /\ suffix e = k /\
                words e' = (words e ++ [x])%list)).
Proof.
  intros [[Hj ->]|(e & Hj & Hk & ->)]; simpl;
    pose proof (lookup_lt_Some _ _ _ Hj) as Hlt;
    (eexists; split; [apply list_lookup_insert_eq; exact Hlt|]); simpl;
    (split; [reflexivity|]); eauto.
Qed.

End KeysAndCounts.

(** X1.  For a table size above zero, [computeHash] returns an index of the
    table: a number below [tableSize], whatever the string. *)
Theorem computeHash_in_range :
  forall (s : string) (tableSize : N),
    0 < tableSize -> computeHash s tableSize < tableSize.
Proof. exact computeHash_lt. Qed.

Lemma computeHash_in_range_witness :
  0 < 6577 /\ computeHash "ing" 6577 < 6577.
Proof.
  split; [reflexivity|].
  apply (computeHash_in_range "ing" 6577). reflexivity.
Defined.

(** X2.  [searchHash] never touches the buckets: after a search, found or
    not, [size], [table] and [count] are what they were, and [probeSteps]
    has not gone down. *)
Theorem searchHash_keeps_buckets :
  forall (T : HashTable) (k : string),
    size (snd (searchHash T k)) = size T /\
    table (snd (searchHash T k)) = table T /\
    count (snd (searchHash T k)) = count T /\
    probeSteps T <= probeSteps (snd (searchHash T k)).
Proof.
  intros T k. destruct (searchHash T k) as [r T'] eqn:H.
  apply searchHash_frame in H. exact H.
Qed.

(** X3.  An [insertHash] that does not return [true] leaves the table as it
    was; one that does keeps [size] and [probeSteps] and the length of the
    array, and adds at most one to [count]. *)
Theorem insertHash_effect :
  forall (T : HashTable) (k x : string),
    (fst (insertHash T k x) = Returned true \/ snd (insertHash T k x) = T) /\
    size (snd (insertHash T k x)) = size T /\
    probeSteps (snd (insertHash T k x)) = probeSteps T /\
    length (table (snd (insertHash T k x))) = length (table T) /\
    count T <= count (snd (insertHash T k x)) <= count T + 1.
Proof.
  intros T k x. destruct (insertHash T k x) as [r T'] eqn:H. simpl.
  destruct (insertHash_cases _ _ _ _ _ H) as [[Hr ->]|[-> (a & _ & _ & Hp)]].
  - repeat split; auto; lia.
  - destruct (placedAt_keys _ _ _ _ _ Hp) as (_ & Hps & Hc).
    split; [auto|]. split; [eapply placedAt_size; eauto|]. split; [exact Hps|].
    split; [|exact Hc].
    destruct Hp as [[_ ->]|(e & _ & _ & ->)]; simpl; apply length_insert.
Qed.

Lemma insertHash_false_iff_full_holds :
  forall (T : HashTable) (k x : string),
    wfTable T ->
    (fst (insertHash T k x) = Returned false <->
     forall j : nat, (j < N.to_nat (size T))%nat -> otherKeyAt T j k).
Proof.
  intros T k x Hwf. split.
  - intros Hf j Hj.
    destruct (insertHash T k x) as [r T'] eqn:H. simpl in Hf. subst r.
    assert (Hh : computeHash k (size T) < size T) by (apply computeHash_lt; lia).
    destruct (probeIndex_covers T _ j Hh Hj) as (a & Ha & <-).
    unfold insertHash in H. eapply insertLoop_false; eauto.
  - intros Hfull.
    destruct (insertHash_returns T k x Hwf) as [b Hb]. rewrite Hb.
    destruct b; [|reflexivity]. exfalso.
    destruct (insertHash T k x) as [r T'] eqn:H. simpl in Hb. subst r.
    destruct (insertHash_cases _ _ _ _ _ H) as [[Hr _]|[_ (a & _ & _ & Hp)]];
      [congruence|].
    apply (placedAt_not_other _ _ _ _ _ Hp). apply Hfull.
    assert (Hlt : (N.to_nat (probeIndex T a (computeHash k (size T)))
                   < length (table T))%nat).
    { destruct Hp as [[Hj _]|(e & Hj & _)]; eapply lookup_lt_Some; eauto. }
    unfold wfTable in Hwf. lia.
Qed.

(** X4.  On a well-formed table [insertHash] returns [false] exactly when
    every slot is bound to a key other than the one inserted: a table with
    an empty slot, or with the key already in it, never refuses a word. *)
Theorem insertHash_false_iff_full :
  forall (T : HashTable) (k x : string),
    wfTable T ->
    (fst (insertHash T k x) = Returned false <->
     forall j : nat, (j < N.to_nat (size T))%nat -> otherKeyAt T j k).
Proof. exact insertHash_false_iff_full_holds. Qed.

Lemma insertHash_false_iff_full_witness :
  wfTable oneKeyTable /\
  (fst (insertHash oneKeyTable "og" "dog") = Returned false <->
   forall j : nat, (j < N.to_nat (size oneKeyTable))%nat -> otherKeyAt oneKeyTable j "og").
Proof.
  assert (Hwf : wfTable oneKeyTable) by reflexivity.
  split; [exact Hwf|].
  apply (insertHash_false_iff_full oneKeyTable "og" "dog" Hwf).
Defined.

(** X5.  On a well-formed table the search for a key that no slot is bound
    to returns the empty list. *)
Theorem searchHash_missing_key :
  forall (T : HashTable) (k : string),
    wfTable T -> ~ bound T k -> fst (searchHash T k) = Returned [].
Proof. exact searchHash_unbound. Qed.

Lemma searchHash_missing_key_witness :
  wfTable oneKeyTable /\ ~ bound oneKeyTable "og" /\
  fst (searchHash oneKeyTable "og") = Returned [].
Proof.
  assert (Hwf : wfTable oneKeyTable) by reflexivity.
  assert (Hno : ~ bound oneKeyTable "og").
  { intros Hb. apply bound_keysOf in Hb. vm_compute in Hb.
    apply list_elem_of_singleton in Hb. discriminate Hb. }
  split; [exact Hwf|]. split; [exact Hno|].
  apply (searchHash_missing_key oneKeyTable "og" Hwf Hno).
Defined.

Lemma insertHash_appends_holds :
  forall (T T' : HashTable) (k x : string),
    insertHash T k x = (Returned true, T') ->
    exists ws : list string,
      fst (searchHash T k) = Returned ws /\
      fst (searchHash T' k) = Returned (ws ++ [x])%list.
Proof.
  intros T T' k x H.
  destruct (insertHash_cases _ _ _ _ _ H) as [[Hr _]|[_ (a & Ha & Hbefore & Hp)]];
    [congruence|].
  pose proof (placedAt_size _ _ _ _ _ Hp) as Hsize.
  assert (Hbefore' : forall a', (a' < a)%nat ->
            otherKeyAt T' (N.to_nat (probeIndex T' a' (computeHash k (size T)))) k).
  { intros a' Ha'. rewrite (probeIndex_size T' T) by exact Hsize.
    eapply otherKeyAt_placed; eauto. }
  destruct (placedAt_words _ _ _ _ _ Hp) as (e' & He' & Hk' & Hw).
  rewrite <- (probeIndex_size T' T) in He' by exact Hsize.
  assert (Hafter : fst (searchHash T' k) = Returned (words e')).
  { unfold searchHash. rewrite Hsize.
    apply (searchLoop_finds _ _ _ _ a _ Ha Hbefore' He' Hk'). }
  destruct Hw as [[Hj Hwords]|(e & Hj & Hk & Hwords)].
  - exists []. split.
    + unfold searchHash. eapply searchLoop_stops; eauto.
    + rewrite Hafter, Hwords. reflexivity.
  - exists (words e). split.
    + unfold searchHash. eapply searchLoop_finds; eauto.
    + rewrite Hafter, Hwords. reflexivity.
Qed.

(** X6.  A successful insert appends: when [insertHash(T, k, x)] returns
    [true], the search for [k] afterwards returns what it returned before
    with [x] added at the end. *)
Theorem insertHash_appends :
  forall (T T' : HashTable) (k x : string),
    insertHash T k x = (Returned true, T') ->
    exists ws : list string,
      fst (searchHash T k) = Returned ws /\
      fst (searchHash T' k) = Returned (ws ++ [x])%list.
Proof. exact insertHash_appends_holds. Qed.

Lemma insertHash_appends_witness :
  insertHash (newHashTable 7) "at" "cat" = (Returned true, oneKeyTable) /\
  exists ws : list string,
    fst (searchHash (newHashTable 7) "at") = Returned ws /\
    fst (searchHash oneKeyTable "at") = Returned (ws ++ ["cat"])%list.
Proof.
  split; [reflexivity|].
  apply (insertHash_appends (newHashTable 7) oneKeyTable "at" "cat"). reflexivity.
Defined.

Lemma newHashTable_unbound (n : N) (k : string) : ~ bound (newHashTable n) k.
Proof.
  intros (j & e & Hj & _). simpl in Hj.
  apply lookup_replicate in Hj as [Hj _]. discriminate.
Qed.

Lemma insertHash_other_key (T : HashTable) (k x k' : string) :
  Reachable T -> k' <> k ->
  fst (searchHash (snd (insertHash T k x)) k') = fst (searchHash T k').
Proof.
  intros Hreach Hne.
  destruct (insertHash T k x) as [r T'] eqn:H. simpl.
  assert (Hreach' : Reachable T') by (eapply Reachable_insert; eauto).
  destruct (insertHash_cases _ _ _ _ _ H) as [[_ ->]|[_ (a & _ & _ & Hp)]];
    [reflexivity|].
  destruct (placedAt_lookup _ _ _ _ _ Hp) as (e' & He' & Hk & _ & Hother).
  destruct (bound_dec T k') as [(j & e & Hj & Hke)|Hno].
  - assert (Hj' : table T' !! j = Some (Some e)).
    { rewrite Hother; [exact Hj|]. intros ->.
      destruct Hp as [[Hnull _]|(e0 & He0 & Hke0 & _)]; congruence. }
    rewrite <- Hke.
    rewrite (searchHash_bound T' j e (Reachable_wf _ Hreach')
               (Reachable_ProbeInvariant _ Hreach') Hj').
    rewrite (searchHash_bound T j e (Reachable_wf _ Hreach)
               (Reachable_ProbeInvariant _ Hreach) Hj).
    reflexivity.
  - rewrite (searchHash_unbound T k' (Reachable_wf _ Hreach) Hno).
    apply searchHash_unbound; [apply Reachable_wf; exact Hreach'|].
    intros (j & e & Hj & Hke). apply Hno.
    destruct (decide (j = N.to_nat (probeIndex T a (computeHash k (size T)))))
      as [->|Hj0].
    + congruence.
    + exists j, e. rewrite <- Hother by exact Hj0. auto.
Qed.

Lemma Reachable_count (T : HashTable) :
  Reachable T -> count T = N.of_nat (length (keysOf (table T))).
Proof.
  induction 1 as [n|T T' k x r _ IH H].
  - simpl. rewrite keysOf_replicate_None. reflexivity.
  - destruct (insertHash_cases _ _ _ _ _ H) as [[_ ->]|[_ (a & _ & _ & Hp)]];
      [exact IH|].
    destruct (placedAt_keys _ _ _ _ _ Hp) as (Hk & _). lia.
Qed.

Lemma searchHash_insertAll_from (kws : list (string * string)) (k : string) :
  forall (T : HashTable) (ws0 : list string),
    Reachable T -> fst (searchHash T k) = Returned ws0 ->
    fst (searchHash (insertAll T kws) k) = Returned (ws0 ++ placedWords T kws k)%list.
Proof.
  induction kws as [|[k0 x] rest IH]; intros T ws0 Hreach H0.
  - simpl. rewrite app_nil_r. exact H0.
  - cbn [insertAll placedWords].
    destruct (insertHash T k0 x) as [r T1] eqn:Hins. cbn [fst snd].
    assert (Hreach1 : Reachable T1) by (eapply Reachable_insert; eauto).
    destruct r as [[|]|err].
    + destruct (Str.eqb k0 k) eqn:Hk.
      * apply Str_eqb_eq in Hk. subst k0.
        destruct (insertHash_appends_holds _ _ _ _ Hins) as (ws & Hws & Hws1).
        rewrite H0 in Hws. inversion Hws; subst ws.
        rewrite (IH T1 _ Hreach1 Hws1). rewrite <- app_assoc. reflexivity.
      * apply Str_eqb_neq in Hk.
        apply IH; [exact Hreach1|].
        pose proof (insertHash_other_key T k0 x k Hreach ltac:(congruence)) as Ho.
        rewrite Hins in Ho. simpl in Ho. rewrite Ho. exact H0.
    + assert (T1 = T) by (eapply insertLoop_unchanged; [exact Hins|congruence]).
      subst T1. apply IH; assumption.
    + assert (T1 = T) by (eapply insertLoop_unchanged; [exact Hins|congruence]).
      subst T1. apply IH; assumption.
Qed.

(** X7.  In a reachable state an insert under one key does not change what
    a search for any other key returns: keys that collide stay retrievable
    each on its own. *)
Theorem insertHash_keeps_other_keys :
  forall (T : HashTable) (k x k' : string),
    Reachable T -> k' <> k ->
    fst (searchHash (snd (insertHash T k x)) k') = fst (searchHash T k').
Proof. exact insertHash_other_key. Qed.

Lemma insertHash_keeps_other_keys_witness :
  Reachable oneKeyTable /\ "at" <> "og" /\
  fst (searchHash (snd (insertHash oneKeyTable "og" "dog")) "at")
    = fst (searchHash oneKeyTable "at").
Proof.
  assert (Hreach : Reachable oneKeyTable).
  { apply (Reachable_insert (newHashTable 7) oneKeyTable "at" "cat" (Returned true)).
    - apply Reachable_new.
    - reflexivity. }
  assert (Hne : "at" <> "og") by discriminate.
  split; [exact Hreach|]. split; [exact Hne|].
  apply (insertHash_keeps_other_keys oneKeyTable "og" "dog" "at" Hreach Hne).
Defined.

(** X8.  In every reachable state [count] is the number of bound slots, and
    it is at most [size]. *)
Theorem count_is_number_of_bound_slots :
  forall T : HashTable,
    Reachable T ->
    count T = N.of_nat (length (keysOf (table T))) /\ count T <= size T.
Proof.
  intros T Hreach.
  pose proof (Reachable_count T Hreach) as Hc. split; [exact Hc|].
  pose proof (Reachable_wf T Hreach) as Hwf. unfold wfTable in Hwf.
  pose proof (length_keysOf (table T)). lia.
Qed.

Lemma count_is_number_of_bound_slots_witness :
  Reachable oneKeyTable /\
  count oneKeyTable = N.of_nat (length (keysOf (table oneKeyTable))) /\
  count oneKeyTable <= size oneKeyTable.
Proof.
  assert (Hreach : Reachable oneKeyTable).
  { apply (Reachable_insert (newHashTable 7) oneKeyTable "at" "cat" (Returned true)).
    - apply Reachable_new.
    - reflexivity. }
  split; [exact Hreach|].
  apply (count_is_number_of_bound_slots oneKeyTable Hreach).
Defined.

(** X9.  A key never moves and is never unbound: a slot bound to a key
    before a call of [insertHash] is bound to the same key after it. *)
Theorem bound_key_stays_in_its_slot :
  forall (T : HashTable) (k x : string) (j : nat) (k0 : string),
    boundAt T j k0 -> boundAt (snd (insertHash T k x)) j k0.
Proof.
  intros T k x j k0 Hb. destruct (insertHash T k x) as [r T'] eqn:H. simpl.
  destruct (insertHash_cases _ _ _ _ _ H) as [[_ ->]|[_ (a & _ & _ & Hp)]].
  - exact Hb.
  - eapply placedAt_boundAt; eauto.
Qed.

Lemma bound_key_stays_in_its_slot_witness :
  boundAt oneKeyTable 1 "at" /\
  boundAt (snd (insertHash oneKeyTable "og" "dog")) 1 "at".
Proof.
  assert (Hb : boundAt oneKeyTable 1 "at").
  { exists {| suffix := "at"; words := ["cat"] |}. split; reflexivity. }
  split; [exact Hb|].
  apply (bound_key_stays_in_its_slot oneKeyTable "og" "dog" 1 "at" Hb).
Defined.

Lemma searchHash_after_inserts_holds :
  forall (n : N) (kws : list (string * string)) (k : string),
    fst (searchHash (insertAll (newHashTable n) kws) k)
      = Returned (placedWords (newHashTable n) kws k).
Proof.
  intros n kws k.
  apply (searchHash_insertAll_from kws k (newHashTable n) []).
  - apply Reachable_new.
  - apply searchHash_unbound.
    + unfold wfTable. simpl. apply length_replicate.
    + apply newHashTable_unbound.
Qed.

(** X10.  A table filled from new by a sequence of inserts answers a search
    with exactly the words whose insert under that key returned [true], in
    the order of the inserts. *)
Theorem searchHash_after_inserts :
  forall (n : N) (kws : list (string * string)) (k : string),
    fst (searchHash (insertAll (newHashTable n) kws) k)
      = Returned (placedWords (newHashTable n) kws k).
Proof. exact searchHash_after_inserts_holds. Qed.

(** ** Ranking *)

Section Sorting.

#[local] Open Scope Z_scope.

Lemma insertByScore_perm (x : Scored) (l : list Scored) :
  insertByScore x l ≡ₚ x :: l.
Proof.
  induction l as [|y l IH]; simpl; [reflexivity|].
  destruct (score y <=? score x); [reflexivity|].
  rewrite IH. apply Permutation_swap.
Qed.

Lemma sortByScore_perm (l : list Scored) : sortByScore l ≡ₚ l.
Proof.
  induction l as [|x l IH]; simpl; [reflexivity|].
  rewrite insertByScore_perm, IH. reflexivity.
Qed.

Lemma descending_cons (x : Scored) (l : list Scored) :
  descending (x :: l) <-> (forall y, y ∈ l -> score y <= score x) /\ descending l.
Proof.
  split.
  - intros H. split.
    + intros y Hy. apply list_elem_of_lookup in Hy as [j Hj].
      apply (H 0%nat (S j) x y); [lia|reflexivity|exact Hj].
    + intros i j a b Hij Hi Hj. apply (H (S i) (S j) a b); [lia|exact Hi|exact Hj].
  - intros [Hx Hl] [|i] [|j] a b Hij Hi Hj; simpl in Hi, Hj.
    + inversion Hi; inversion Hj; subst. lia.
    + inversion Hi; subst a. apply Hx. apply list_elem_of_lookup. eauto.
    + lia.
    + apply (Hl i j a b); [lia|exact Hi|exact Hj].
Qed.

Lemma insertByScore_descending (x : Scored) (l : list Scored) :
  descending l -> descending (insertByScore x l).
Proof.
  induction l as [|y l IH]; intros Hl; simpl.
  - apply descending_cons. split; [|intros i j a b _ Hi; rewrite lookup_nil in Hi; discriminate].
    intros y Hy. apply elem_of_nil in Hy. contradiction.
  - apply descending_cons in Hl as [Hy Hl].
    destruct (Z.leb_spec (score y) (score x)) as [Hle|Hgt].
    + apply descending_cons. split.
      * intros z Hz. apply elem_of_cons in Hz as [->|Hz]; [exact Hle|].
        specialize (Hy z Hz). lia.
      * apply descending_cons. auto.
    + apply descending_cons. split.
      * intros z Hz. rewrite insertByScore_perm in Hz.
        apply elem_of_cons in Hz as [->|Hz]; [lia|auto].
      * apply IH. exact Hl.
Qed.

Lemma sortByScore_descending (l : list Scored) : descending (sortByScore l).
Proof.
  induction l as [|x l IH]; simpl.
  - intros i j a b _ Hi. rewrite lookup_nil in Hi. discriminate.
  - apply insertByScore_descending. exact IH.
Qed.

Lemma filter_insertByScore (c : Z) (x : Scored) (l : list Scored) :
  List.filter (fun y => score y =? c) (insertByScore x l)
    = List.filter (fun y => score y =? c) (x :: l).
Proof.
  induction l as [|y l IH]; [reflexivity|].
  cbn [insertByScore].
  destruct (Z.leb_spec (score y) (score x)) as [Hle|Hgt]; [reflexivity|].
  cbn [List.filter] in *. rewrite IH.
  destruct (Z.eqb_spec (score x) c) as [Hx|Hx],
           (Z.eqb_spec (score y) c) as [Hy|Hy]; try reflexivity.
  lia.
Qed.

End Sorting.

Section Ranked.

#[local] Open Scope nat_scope.

(** Every scored candidate carries its own score, which is positive, and
    its word is one of the candidates. *)
Lemma scoreCandidates_spec (w : string) (cs : list string) (x : Scored) :
  x ∈ scoreCandidates w cs ->
  score x = scoreRhyme w (word x) /\ (0 < score x)%Z /\ word x ∈ cs.
Proof.
  induction cs as [|c cs IH]; simpl; intros Hx.
  - apply elem_of_nil in Hx. contradiction.
  - destruct (Z.ltb_spec 0 (scoreRhyme w c)) as [Hpos|Hnon].
    + apply elem_of_cons in Hx as [->|Hx].
      * simpl. split; [reflexivity|]. split; [exact Hpos|]. apply elem_of_cons. auto.
      * destruct (IH Hx) as (? & ? & ?). repeat split; auto. apply elem_of_cons. auto.
    + destruct (IH Hx) as (? & ? & ?). repeat split; auto. apply elem_of_cons. auto.
Qed.

Lemma rankCandidates_elem (w : string) (cs : list string) (m : Z) (r : string) :
  r ∈ rankCandidates w cs m -> r ∈ cs /\ (0 < scoreRhyme w r)%Z.
Proof.
  unfold rankCandidates. intros Hr.
  apply list_elem_of_In, in_map_iff in Hr as (x & <- & Hx).
  apply list_elem_of_In in Hx. apply elem_of_take in Hx as (i & Hx & _).
  apply list_elem_of_lookup_2 in Hx.
  rewrite sortByScore_perm in Hx.
  destruct (scoreCandidates_spec w cs x Hx) as (Hs & Hpos & Hin).
  split; [exact Hin|]. rewrite <- Hs. exact Hpos.
Qed.

Lemma lookup_map_Some {A B : Type} (f : A -> B) (l : list A) (i : nat) (y : B) :
  map f l !! i = Some y -> exists x, y = f x /\ l !! i = Some x.
Proof.
  revert i. induction l as [|x l IH]; intros [|i] H; simpl in H; try discriminate.
  - inversion H. eauto.
  - apply IH. exact H.
Qed.

Lemma rankCandidates_descending (w : string) (cs : list string) (m : Z) :
  descendingWords w (rankCandidates w cs m).
Proof.
  unfold rankCandidates. intros i j a b Hij Hi Hj.
  apply lookup_map_Some in Hi as (x & -> & Hx).
  apply lookup_map_Some in Hj as (y & -> & Hy).
  apply lookup_take_Some in Hx as [Hx _]. apply lookup_take_Some in Hy as [Hy _].
  pose proof (sortByScore_descending (scoreCandidates w cs) i j x y Hij Hx Hy) as Hd.
  assert (Hsx : score x = scoreRhyme w (word x)).
  { apply (scoreCandidates_spec w cs). rewrite <- sortByScore_perm.
    eapply list_elem_of_lookup_2; eauto. }
  assert (Hsy : score y = scoreRhyme w (word y)).
  { apply (scoreCandidates_spec w cs). rewrite <- sortByScore_perm.
    eapply list_elem_of_lookup_2; eauto. }
  lia.
Qed.

Lemma appendNew_elem (rs ps : list string) (x : string) :
  x ∈ appendNew rs ps -> x ∈ rs \/ x ∈ ps.
Proof.
  revert rs. induction ps as [|p ps IH]; intros rs Hx; simpl in Hx; [auto|].
  destruct (includes rs p).
  - destruct (IH _ Hx) as [H|H]; [auto|]. right. apply elem_of_cons. auto.
  - destruct (IH _ Hx) as [H|H].
    + apply elem_of_app in H as [H|H]; [auto|].
      apply list_elem_of_singleton in H. right. apply elem_of_cons. auto.
    + right. apply elem_of_cons. auto.
Qed.

End Ranked.

(** X11.  The sort of [findRhymes] and [phoneticSearch] rearranges the
    scored candidates, and no element of the result has a larger score than
    one that comes before it. *)
Theorem sortByScore_sorts :
  forall l : list Scored, sortByScore l ≡ₚ l /\ descending (sortByScore l).
Proof.
  intros l. split; [apply sortByScore_perm|apply sortByScore_descending].
Qed.

(** X12.  The sort is stable: for every score, the candidates with that
    score come out in the order in which they went in. *)
Theorem sortByScore_stable :
  forall (l : list Scored) (c : Z),
    List.filter (fun y => (score y =? c)%Z) (sortByScore l)
      = List.filter (fun y => (score y =? c)%Z) l.
Proof.
  intros l c. induction l as [|x l IH]; [reflexivity|].
  cbn [sortByScore]. rewrite filter_insertByScore.
  cbn [List.filter]. rewrite IH. reflexivity.
Qed.

Lemma findRhymes_ranked_holds :
  forall (t : TableId) (inputWord : string) (suffixLength maxResults : Z)
         (s : Tables) (rs : list string),
    outcome (findRhymes t inputWord suffixLength maxResults s) = Returned rs ->
    exists cs : list string,
      fst (searchHash (getTable t s) (extractSuffix inputWord suffixLength))
        = Returned cs /\
      (forall r, r ∈ rs -> r ∈ cs /\ (0 < scoreRhyme inputWord r)%Z) /\
      descendingWords inputWord rs /\
      (length rs <= Z.to_nat maxResults)%nat.
Proof.
  intros t w L m s rs H. rewrite findRhymes_run in H. simpl in H.
  destruct (fst (searchHash _ _)) as [cs|]; [|discriminate].
  inversion H; subst rs. exists cs. split; [reflexivity|].
  split; [intros r; apply rankCandidates_elem|].
  split; [apply rankCandidates_descending|apply length_rankCandidates].
Qed.

(** X13.  When [findRhymes] returns, the search of the table returned the
    candidates [cs], every word of the result is one of [cs] and scores
    above zero against the input word, the result goes down in score, and
    it has at most [maxResults] words. *)
Theorem findRhymes_ranked :
  forall (t : TableId) (inputWord : string) (suffixLength maxResults : Z)
         (s : Tables) (rs : list string),
    outcome (findRhymes t inputWord suffixLength maxResults s) = Returned rs ->
    exists cs : list string,
      fst (searchHash (getTable t s) (extractSuffix inputWord suffixLength))
        = Returned cs /\
      (forall r, r ∈ rs -> r ∈ cs /\ (0 < scoreRhyme inputWord r)%Z) /\
      descendingWords inputWord rs /\
      (length rs <= Z.to_nat maxResults)%nat.
Proof. exact findRhymes_ranked_holds. Qed.

Lemma findRhymes_ranked_witness :
  outcome (findRhymes Rhyme "cat" 2 10 (final (buildRun threeRhymesText 2)))
    = Returned ["hat"; "bat"; "mat"] /\
  exists cs : list string,
    fst (searchHash (getTable Rhyme (final (buildRun threeRhymesText 2)))
           (extractSuffix "cat" 2)) = Returned cs /\
    (forall r, r ∈ ["hat"; "bat"; "mat"] -> r ∈ cs /\ (0 < scoreRhyme "cat" r)%Z) /\
    descendingWords "cat" ["hat"; "bat"; "mat"] /\
    (length ["hat"; "bat"; "mat"] <= Z.to_nat 10)%nat.
Proof.
  assert (H : outcome (findRhymes Rhyme "cat" 2 10 (final (buildRun threeRhymesText 2)))
              = Returned ["hat"; "bat"; "mat"]) by (vm_compute; reflexivity).
  split; [exact H|].
  apply (findRhymes_ranked Rhyme "cat" 2 10 (final (buildRun threeRhymesText 2))
           ["hat"; "bat"; "mat"] H).
Defined.

Lemma phoneticSearch_ranked_holds :
  forall (t : TableId) (inputWord : string) (suffixLength maxResults : Z)
         (s : Tables) (rs : list string),
    outcome (phoneticSearch t inputWord suffixLength maxResults s) = Returned rs ->
    exists cs : list string,
      fst (searchHash (getTable t s)
             (extractSuffix (computePhoneticKey inputWord) suffixLength))
        = Returned cs /\
      (forall r, r ∈ rs -> r ∈ cs /\ (0 < scoreRhyme inputWord r)%Z) /\
      descendingWords inputWord rs /\
      (length rs <= Z.to_nat maxResults)%nat.
Proof.
  intros t w L m s rs H. rewrite phoneticSearch_run in H. simpl in H.
  destruct (fst (searchHash _ _)) as [cs|]; [|discriminate].
  inversion H; subst rs. exists cs. split; [reflexivity|].
  split; [intros r; apply rankCandidates_elem|].
  split; [apply rankCandidates_descending|apply length_rankCandidates].
Qed.

(** ** Suffixes, syllables and phonetic keys *)

Section Suffix.

#[local] Open Scope nat_scope.

Lemma len_toLowerCase (s : string) : Str.len (Str.toLowerCase s) = Str.len s.
Proof.
  unfold Str.len. induction s as [|c r IH]; simpl; [reflexivity|].
  rewrite IH. reflexivity.
Qed.

Lemma lowerChar_idem (c : ascii) : Str.lowerChar (Str.lowerChar c) = Str.lowerChar c.
Proof. destruct c as [[] [] [] [] [] [] [] []]; reflexivity. Qed.

Lemma toLowerCase_idem (s : string) :
  Str.toLowerCase (Str.toLowerCase s) = Str.toLowerCase s.
Proof. induction s as [|c r IH]; simpl; [reflexivity|]. rewrite lowerChar_idem, IH. reflexivity. Qed.

Lemma len_drop (n : nat) (s : string) : Str.len (Str.drop n s) = Str.len s - n.
Proof.
  revert s. induction n as [|n IH]; intros s; simpl; [unfold Str.len; lia|].
  destruct s as [|c r]; [reflexivity|]. apply IH.
Qed.

Lemma drop_is_suffix (n : nat) (s : string) :
  exists pre : string, s = pre ++ Str.drop n s.
Proof.
  revert s. induction n as [|n IH]; intros s; simpl.
  - exists EmptyString. reflexivity.
  - destruct s as [|c r]; [exists EmptyString; reflexivity|].
    destruct (IH r) as [pre Hpre]. exists (String c pre). simpl. congruence.
Qed.

Lemma toLowerCase_drop (n : nat) (s : string) :
  Str.toLowerCase (Str.drop n s) = Str.drop n (Str.toLowerCase s).
Proof.
  revert s. induction n as [|n IH]; intros s; simpl; [reflexivity|].
  destruct s as [|c r]; [reflexivity|]. apply IH.
Qed.

Lemma drop_all (n : nat) (s : string) : Str.len s <= n -> Str.drop n s = EmptyString.
Proof.
  revert s. induction n as [|n IH]; intros s Hn.
  - destruct s; [reflexivity|]. simpl in Hn. lia.
  - destruct s as [|c r]; [reflexivity|]. simpl. apply IH. simpl in Hn. lia.
Qed.

End Suffix.

Lemma extractSuffix_positive_length_holds :
  forall (word : string) (length : Z),
    (0 < length)%Z ->
    Str.len (extractSuffix word length) = Nat.min (Str.len word) (Z.to_nat length) /\
    exists pre : string, Str.toLowerCase word = pre ++ extractSuffix word length.
Proof.
  intros w L HL. unfold extractSuffix. cbv zeta.
  rewrite len_toLowerCase.
  destruct (Z.leb_spec (Z.of_nat (Str.len w)) L) as [Hle|Hgt].
  - rewrite len_toLowerCase. split; [lia|]. exists EmptyString. reflexivity.
  - unfold Str.slice. rewrite len_toLowerCase.
    destruct (Z.ltb_spec (- L) 0) as [_|Hno]; [|lia].
    split; [rewrite len_drop, len_toLowerCase; lia|apply drop_is_suffix].
Qed.

(** X14.  For a positive [length], [extractSuffix] returns the last
    [length] characters of the lower-cased word, or all of it when it has
    no more than that: the result ends the lower-cased word and has
    min(word.length, length) characters. *)
Theorem extractSuffix_positive_length :
  forall (word : string) (length : Z),
    (0 < length)%Z ->
    Str.len (extractSuffix word length) = Nat.min (Str.len word) (Z.to_nat length) /\
    exists pre : string, Str.toLowerCase word = pre ++ extractSuffix word length.
Proof. exact extractSuffix_positive_length_holds. Qed.

Lemma extractSuffix_positive_length_witness :
  (0 < 3)%Z /\
  Str.len (extractSuffix "Catalog" 3) = Nat.min (Str.len "Catalog") (Z.to_nat 3) /\
  exists pre : string, Str.toLowerCase "Catalog" = pre ++ extractSuffix "Catalog" 3.
Proof.
  split; [reflexivity|].
  apply (extractSuffix_positive_length "Catalog" 3). reflexivity.
Defined.

Lemma extractSuffix_nonpositive_length_holds :
  forall (word : string) (length : Z),
    (length <= 0)%Z ->
    extractSuffix word length = Str.drop (Z.to_nat (- length)) (Str.toLowerCase word).
Proof.
  intros w L HL. unfold extractSuffix. cbv zeta.
  destruct (Z.leb_spec (Z.of_nat (Str.len (Str.toLowerCase w))) L) as [Hle|Hgt].
  - assert (L = 0%Z) by lia. subst L. reflexivity.
  - unfold Str.slice.
    destruct (Z.ltb_spec (- L) 0) as [Hneg|_]; [lia|].
    destruct (Z.min_spec (- L) (Z.of_nat (Str.len (Str.toLowerCase w))))
      as [[_ ->]|[Hlen ->]]; [reflexivity|].
    rewrite Nat2Z.id.
    rewrite !drop_all; [reflexivity| |]; lia.
Qed.

(** X15.  For a [length] of zero or below, [extractSuffix] returns the
    lower-cased word without its first [-length] characters: the whole
    lower-cased word for zero, and the empty string once [-length] reaches
    the number of characters of the word. *)
Theorem extractSuffix_nonpositive_length :
  forall (word : string) (length : Z),
    (length <= 0)%Z ->
    extractSuffix word length
      = Str.drop (Z.to_nat (- length)) (Str.toLowerCase word) /\
    Str.len (extractSuffix word length)
      = (Str.len word - Z.to_nat (- length))%nat.
Proof.
  intros w L HL.
  rewrite (extractSuffix_nonpositive_length_holds w L HL).
  split; [reflexivity|]. rewrite len_drop, len_toLowerCase. reflexivity.
Qed.

Lemma extractSuffix_nonpositive_length_witness :
  (-10 <= 0)%Z /\
  extractSuffix "Catalog" (-10)
    = Str.drop (Z.to_nat (- (-10))) (Str.toLowerCase "Catalog") /\
  Str.len (extractSuffix "Catalog" (-10))
    = (Str.len "Catalog" - Z.to_nat (- (-10)))%nat.
Proof.
  split; [discriminate|].
  apply (extractSuffix_nonpositive_length "Catalog" (-10)). discriminate.
Defined.


Section Syllables.

#[local] Open Scope Z_scope.

Lemma syllableLoop_bounds (rest : string) (i : nat) (s : Z) (prev : bool) :
  s <= syllableLoop rest i s prev <= s + Z.of_nat (Str.len rest).
Proof.
  unfold Str.len.
  revert i s prev. induction rest as [|c r IH]; intros i s prev; simpl String.length.
  - simpl. lia.
  - cbn [syllableLoop]. cbv zeta.
    match goal with
    | |- _ <= syllableLoop r (S i) ?s' ?p' <= _ =>
        specialize (IH (S i) s' p'); assert (s <= s' <= s + 1)
    end.
    { destruct (_ && negb prev); lia. }
    lia.
Qed.

End Syllables.

(** X16.  [countSyllables] returns 0 for the empty word and at least 1 for
    any other; it never returns more than the number of characters. *)
Theorem countSyllables_bounds :
  forall word : string,
    (Z.min 1 (Z.of_nat (Str.len word)) <= countSyllables word
     <= Z.of_nat (Str.len word))%Z.
Proof.
  intros w. unfold countSyllables. cbv zeta. rewrite len_toLowerCase.
  destruct (Nat.eqb_spec (Str.len w) 0) as [H0|Hn]; [rewrite H0; simpl; lia|].
  pose proof (syllableLoop_bounds (Str.toLowerCase w) 0 0 false) as Hb.
  rewrite len_toLowerCase in Hb.
  assert (Hn' : (1 <= Z.of_nat (Str.len w))%Z) by lia.
  repeat match goal with
         | |- context [(?x <? 1)%Z] => destruct (Z.ltb_spec x 1)
         | |- context [if ?b then _ else _] => destruct b
         end; lia.
Qed.

Section PhoneticKey.

Lemma keyLoop_cons (c : ascii) (rest : string) :
  keyLoop (String c rest) =
    if isVowel c then String "V" (keyLoop (dropWhile isVowel rest))
    else if Ascii.eqb c "c" then
      String (match rest with
              | String d _ => if Ascii.eqb d "e" || Ascii.eqb d "i" then "S" else "K"
              | EmptyString => "K"
              end)%char (keyLoop rest)
    else String c (keyLoop (dropWhile (Ascii.eqb c) rest)).
Proof.
  assert (Hskip : forall (p : ascii -> bool) (s : string),
            (fix skip (p : ascii -> bool) (s : string) {struct s} : string :=
               match s with
               | EmptyString => EmptyString
               | String d s' => if p d then skip p s' else keyLoop s
               end) p s = keyLoop (dropWhile p s)).
  { intros p s. induction s as [|d s IH]; [reflexivity|].
    cbn [dropWhile]. destruct (p d); [exact IH|reflexivity]. }
  change (keyLoop (String c rest)) with
    (if isVowel c then
       String "V"
         ((fix skip (p : ascii -> bool) (s : string) {struct s} : string :=
             match s with
             | EmptyString => EmptyString
             | String d s' => if p d then skip p s' else keyLoop s
             end) isVowel rest)
     else if Ascii.eqb c "c" then
       match rest with
       | String d _ =>
           if Ascii.eqb d "e" || Ascii.eqb d "i" then String "S" (keyLoop rest)
           else String "K" (keyLoop rest)
       | EmptyString => String "K" (keyLoop rest)
       end
     else
       String c
         ((fix skip (p : ascii -> bool) (s : string) {struct s} : string :=
             match s with
             | EmptyString => EmptyString
             | String d s' => if p d then skip p s' else keyLoop s
             end) (Ascii.eqb c) rest)).
  rewrite !Hskip.
  destruct (isVowel c); [reflexivity|].
  destruct (Ascii.eqb c "c"); [|reflexivity].
  destruct rest as [|d r]; [reflexivity|].
  destruct (Ascii.eqb d "e" || Ascii.eqb d "i"); reflexivity.
Qed.

End PhoneticKey.

Section KeyCharacters.

#[local] Open Scope nat_scope.

Lemma len_dropWhile (p : ascii -> bool) (s : string) :
  Str.len (dropWhile p s) <= Str.len s.
Proof.
  unfold Str.len. induction s as [|c r IH]; simpl; [lia|].
  destruct (p c); simpl; lia.
Qed.

Lemma keyLoop_chars_bounded (n : nat) :
  forall s : string,
    Str.len s <= n ->
    allChars isKeyChar (keyLoop s) = true /\ Str.len (keyLoop s) <= Str.len s.
Proof.
  induction n as [|n IH]; intros s Hn.
  - destruct s; [split; [reflexivity|simpl; lia]|]. unfold Str.len in Hn. simpl in Hn. lia.
  - destruct s as [|c rest]; [split; [reflexivity|simpl; lia]|].
    assert (Hrest : Str.len rest <= n) by (unfold Str.len in *; simpl in Hn; lia).
    rewrite keyLoop_cons.
    destruct (isVowel c) eqn:Hv.
    + pose proof (len_dropWhile isVowel rest) as Hd.
      destruct (IH (dropWhile isVowel rest) ltac:(lia)) as [Ha Hl].
      unfold Str.len in *. cbn [allChars String.length]. rewrite Ha.
      split; [reflexivity|lia].
    + destruct (Ascii.eqb c "c") eqn:Hc.
      * destruct (IH rest Hrest) as [Ha Hl].
        unfold Str.len in *. cbn [allChars String.length]. rewrite Ha.
        split; [|lia].
        destruct rest as [|d r]; [reflexivity|].
        destruct (Ascii.eqb d "e" || Ascii.eqb d "i"); reflexivity.
      * pose proof (len_dropWhile (Ascii.eqb c) rest) as Hd.
        destruct (IH (dropWhile (Ascii.eqb c) rest) ltac:(lia)) as [Ha Hl].
        unfold Str.len in *. cbn [allChars String.length]. rewrite Ha.
        unfold isKeyChar. rewrite Hv, Hc. split; [reflexivity|lia].
Qed.

End KeyCharacters.

(** X17.  A phonetic key holds no lower-case vowel and no lower-case c:
    every vowel of the rewritten word has become "V" and every c has
    become "S" or "K". *)
Theorem computePhoneticKey_has_no_vowel :
  forall word : string, allChars isKeyChar (computePhoneticKey word) = true.
Proof.
  intros w. unfold computePhoneticKey. cbv zeta.
  eapply keyLoop_chars_bounded. reflexivity.
Qed.

Section KeyLength.

#[local] Open Scope nat_scope.

Lemma len_append (s t : string) : Str.len (s ++ t) = Str.len s + Str.len t.
Proof. unfold Str.len. induction s as [|c r IH]; simpl; [reflexivity|]. rewrite IH. reflexivity. Qed.

Lemma prefix_len (p s : string) : String.prefix p s = true -> Str.len p <= Str.len s.
Proof.
  unfold Str.len. revert s. induction p as [|c p IH]; intros s H; simpl; [lia|].
  destruct s as [|d s]; simpl in H; [discriminate|].
  destruct (ascii_dec c d); [|discriminate]. specialize (IH s H). simpl. lia.
Qed.

(** A replacement that is not longer than its pattern does not lengthen
    the string. *)
Lemma len_replaceAllFrom (pat rep : string) :
  Str.len rep <= Str.len pat -> 1 <= Str.len pat ->
  forall (s : string) (skip : nat),
    Str.len (replaceAllFrom pat rep skip s) + Nat.min skip (Str.len s) <= Str.len s.
Proof.
  intros Hrep Hpat. induction s as [|c r IH]; intros skip.
  - simpl. unfold Str.len. simpl. lia.
  - cbn [replaceAllFrom]. destruct skip as [|k].
    + destruct (String.prefix pat (String c r)) eqn:Hp.
      * apply prefix_len in Hp. rewrite len_append.
        specialize (IH (Str.len pat - 1)).
        unfold Str.len in *. simpl String.length in *. lia.
      * specialize (IH 0). unfold Str.len in *. simpl String.length in *. lia.
    + specialize (IH k). unfold Str.len in *. simpl String.length in *. lia.
Qed.

Lemma len_replaceAll (s pat rep : string) :
  Str.len rep <= Str.len pat -> 1 <= Str.len pat ->
  Str.len (replaceAll s pat rep) <= Str.len s.
Proof.
  intros Hrep Hpat. pose proof (len_replaceAllFrom pat rep Hrep Hpat s 0).
  unfold replaceAll. lia.
Qed.

End KeyLength.

(** A phonetic key is never longer than its word. *)
Lemma computePhoneticKey_not_longer :
  forall word : string,
    (Str.len (computePhoneticKey word) <= Str.len word)%nat.
Proof.
  intros w. unfold computePhoneticKey. cbv zeta.
  eapply Nat.le_trans;
    [apply (keyLoop_chars_bounded _ _ (Nat.le_refl _))|].
  repeat (eapply Nat.le_trans;
          [apply len_replaceAll; unfold Str.len; simpl; lia|]).
  rewrite len_toLowerCase. apply Nat.le_refl.
Qed.

(** ** Capacity *)

Section Capacity.

#[local] Open Scope nat_scope.

Lemma keysOf_elem (l : list (option Entry)) (k : string) :
  k ∈ keysOf l -> exists j e, l !! j = Some (Some e) /\ suffix e = k.
Proof.
  induction l as [|o l IH]; simpl; intros Hk.
  - apply elem_of_nil in Hk. contradiction.
  - destruct o as [e|].
    + apply elem_of_cons in Hk as [->|Hk].
      * exists 0, e. auto.
      * destruct (IH Hk) as (j & e' & Hj & He). exists (S j), e'. auto.
    + destruct (IH Hk) as (j & e' & Hj & He). exists (S j), e'. auto.
Qed.

Lemma NoDup_keysOf (l : list (option Entry)) :
  (forall i j e1 e2, l !! i = Some (Some e1) -> l !! j = Some (Some e2) ->
                     suffix e1 = suffix e2 -> i = j) ->
  NoDup (keysOf l).
Proof.
  induction l as [|o l IH]; intros Huniq; simpl; [apply NoDup_nil_2|].
  assert (Hl : NoDup (keysOf l)).
  { apply IH. intros i j e1 e2 Hi Hj He.
    specialize (Huniq (S i) (S j) e1 e2 Hi Hj He). lia. }
  destruct o as [e|]; [|exact Hl].
  apply NoDup_cons. split; [|exact Hl].
  intros Hin. apply keysOf_elem in Hin as (j & e' & Hj & He).
  specialize (Huniq 0 (S j) e e' eq_refl Hj (eq_sym He)). lia.
Qed.

Lemma keysOf_full (l : list (option Entry)) (k : string) :
  (forall j, j < length l -> exists e, l !! j = Some (Some e) /\ suffix e <> k) ->
  length (keysOf l) = length l /\ k ∉ keysOf l.
Proof.
  induction l as [|o l IH]; intros Hfull; simpl.
  - split; [reflexivity|]. apply not_elem_of_nil.
  - destruct IH as [Hlen Hnot].
    { intros j Hj. apply (Hfull (S j)). simpl. lia. }
    destruct (Hfull 0 ltac:(simpl; lia)) as (e & He & Hne).
    simpl in He. inversion He; subst o. simpl. split; [lia|].
    intros Hin. apply elem_of_cons in Hin as [Hin|Hin]; [congruence|contradiction].
Qed.

Lemma insertHash_bound_inv (T T' : HashTable) (k x k0 : string) (r : Outcome bool) :
  insertHash T k x = (r, T') -> bound T' k0 -> bound T k0 \/ k0 = k.
Proof.
  intros H (j & e & Hj & Hk0).
  destruct (insertHash_cases _ _ _ _ _ H) as [[_ ->]|[_ (a & _ & _ & Hp)]].
  - left. exists j, e. auto.
  - destruct (placedAt_lookup _ _ _ _ _ Hp) as (e' & He' & Hk & _ & Hother).
    destruct (decide (j = N.to_nat (probeIndex T a (computeHash k (size T)))))
      as [->|Hne].
    + right. congruence.
    + left. exists j, e. rewrite <- Hother by exact Hne. auto.
Qed.

(** A reachable table that refuses a key holds [size] other keys, all
    different. *)
Lemma refused_key_count (T : HashTable) (k x : string) :
  Reachable T -> fst (insertHash T k x) = Returned false ->
  NoDup (k :: keysOf (table T)) /\
  length (k :: keysOf (table T)) = S (N.to_nat (size T)).
Proof.
  intros Hreach Hf.
  pose proof (Reachable_wf T Hreach) as Hwf.
  pose proof (proj1 (insertHash_false_iff_full_holds T k x Hwf) Hf) as Hfull.
  destruct (keysOf_full (table T) k) as [Hlen Hnot].
  { intros j Hj. apply Hfull. unfold wfTable in Hwf. lia. }
  split.
  - apply NoDup_cons. split; [exact Hnot|].
    apply NoDup_keysOf. intros i j e1 e2.
    apply ProbeInvariant_unique, Reachable_ProbeInvariant, Hreach.
  - simpl. unfold wfTable in Hwf. lia.
Qed.

Lemma allPlaced_capacity (kws : list (string * string)) :
  forall (T : HashTable) (seen : list string),
    Reachable T ->
    (forall k, bound T k -> k ∈ seen) ->
    (forall ks, NoDup ks -> (forall k, k ∈ ks -> k ∈ (seen ++ map fst kws)%list) ->
                length ks <= N.to_nat (size T)) ->
    allPlaced T kws = true.
Proof.
  induction kws as [|[k0 x] rest IH]; intros T seen Hreach Hseen Hcap; [reflexivity|].
  cbn [allPlaced].
  destruct (insertHash T k0 x) as [r T1] eqn:Hins. cbn [fst snd].
  destruct (insertHash_returns T k0 x (Reachable_wf T Hreach)) as [b Hb].
  rewrite Hins in Hb. simpl in Hb. subst r.
  destruct b.
  - apply (IH T1 (seen ++ [k0])%list).
    + eapply Reachable_insert; eauto.
    + intros k Hk. apply elem_of_app.
      destruct (insertHash_bound_inv _ _ _ _ _ _ Hins Hk) as [Hb| ->].
      * left. auto.
      * right. apply list_elem_of_singleton. reflexivity.
    + intros ks Hnd Hks. rewrite (insertHash_size _ _ _ _ _ Hins).
      apply Hcap; [exact Hnd|]. intros k Hk. specialize (Hks k Hk).
      rewrite <- app_assoc in Hks. exact Hks.
  - exfalso.
    destruct (refused_key_count T k0 x Hreach) as [Hnd Hlen].
    { rewrite Hins. reflexivity. }
    specialize (Hcap _ Hnd). rewrite Hlen in Hcap.
    assert (S (N.to_nat (size T)) <= N.to_nat (size T)); [|lia].
    apply Hcap. intros k Hk. apply elem_of_app.
    apply elem_of_cons in Hk as [->|Hk].
    + right. simpl. apply elem_of_cons. auto.
    + left. apply Hseen. apply keysOf_elem in Hk as (j & e & Hj & He).
      exists j, e. auto.
Qed.

Lemma distinct_elem (l : list string) (x : string) : x ∈ l -> x ∈ distinct l.
Proof.
  induction l as [|y l IH]; intros Hx; [exact Hx|].
  simpl. destruct (existsb (Str.eqb y) l) eqn:Hy.
  - apply elem_of_cons in Hx as [->|Hx]; [|auto].
    apply IH. apply existsb_exists in Hy as (z & Hz & Hyz).
    apply Str_eqb_eq in Hyz. subst z. apply list_elem_of_In. exact Hz.
  - apply elem_of_cons in Hx as [->|Hx]; apply elem_of_cons; auto.
Qed.

Lemma distinct_bound (l ks : list string) :
  NoDup ks -> (forall k, k ∈ ks -> k ∈ l) -> length ks <= length (distinct l).
Proof.
  intros Hnd Hks. apply submseteq_length, NoDup_submseteq; [exact Hnd|].
  intros k Hk. apply distinct_elem, Hks, Hk.
Qed.

Lemma placedWords_allPlaced (key : string -> string) (k : string) (ws : list string) :
  forall T : HashTable,
    allPlaced T (keyed key ws) = true ->
    placedWords T (keyed key ws) k = wordsWithKey key k ws.
Proof.
  induction ws as [|w rest IH]; intros T H; [reflexivity|].
  cbn [keyed map allPlaced placedWords wordsWithKey] in *.
  destruct (fst (insertHash T (key w) w)) as [[|]|]; try discriminate.
  fold (keyed key rest) in *. rewrite (IH _ H). reflexivity.
Qed.

End Capacity.

Lemma inserts_fit_when_keys_fit_holds :
  forall (n : N) (kws : list (string * string)),
    (length (distinct (map fst kws)) <= N.to_nat n)%nat ->
    allPlaced (newHashTable n) kws = true.
Proof.
  intros n kws Hn.
  apply (allPlaced_capacity kws (newHashTable n) []).
  - apply Reachable_new.
  - intros k Hk. exfalso. eapply newHashTable_unbound; eauto.
  - intros ks Hnd Hks. simpl in *.
    pose proof (distinct_bound (map fst kws) ks Hnd Hks). lia.
Qed.

(** X18.  A new table with at least as many slots as the list of inserts
    has different keys never refuses an insert: every call returns
    [true]. *)
Theorem inserts_fit_when_keys_fit :
  forall (n : N) (kws : list (string * string)),
    (length (distinct (map fst kws)) <= N.to_nat n)%nat ->
    allPlaced (newHashTable n) kws = true.
Proof. exact inserts_fit_when_keys_fit_holds. Qed.

Lemma inserts_fit_when_keys_fit_witness :
  (length (distinct (map fst [("at", "cat"); ("og", "dog"); ("at", "hat")]))
   <= N.to_nat 2)%nat /\
  allPlaced (newHashTable 2) [("at", "cat"); ("og", "dog"); ("at", "hat")] = true.
Proof.
  split; [vm_compute; lia|].
  apply (inserts_fit_when_keys_fit 2 [("at", "cat"); ("og", "dog"); ("at", "hat")]).
  vm_compute. lia.
Defined.

Lemma search_returns_words_with_key_holds :
  forall (n : N) (key : string -> string) (ws : list string) (k : string),
    (length (distinct (map key ws)) <= N.to_nat n)%nat ->
    fst (searchHash (insertAll (newHashTable n) (keyed key ws)) k)
      = Returned (wordsWithKey key k ws).
Proof.
  intros n key ws k Hn.
  rewrite searchHash_after_inserts_holds.
  rewrite placedWords_allPlaced; [reflexivity|].
  apply inserts_fit_when_keys_fit_holds.
  unfold keyed. rewrite map_map. exact Hn.
Qed.

(** X19.  After such a sequence of inserts, where each word goes in under
    the key that [key] gives it, the search for a key returns exactly the
    words of the list with that key, in the order of the list. *)
Theorem search_returns_words_with_key :
  forall (n : N) (key : string -> string) (ws : list string) (k : string),
    (length (distinct (map key ws)) <= N.to_nat n)%nat ->
    fst (searchHash (insertAll (newHashTable n) (keyed key ws)) k)
      = Returned (wordsWithKey key k ws).
Proof. exact search_returns_words_with_key_holds. Qed.

Lemma search_returns_words_with_key_witness :
  (length (distinct (map (fun w => extractSuffix w 2) ["cat"; "dog"; "hat"]))
   <= N.to_nat 2)%nat /\
  fst (searchHash (insertAll (newHashTable 2)
                     (keyed (fun w => extractSuffix w 2) ["cat"; "dog"; "hat"])) "at")
    = Returned (wordsWithKey (fun w => extractSuffix w 2) "at" ["cat"; "dog"; "hat"]).
Proof.
  split; [vm_compute; lia|].
  apply (search_returns_words_with_key 2 (fun w => extractSuffix w 2)
           ["cat"; "dog"; "hat"] "at").
  vm_compute. lia.
Defined.

(** ** What the build makes *)

Section BuildShape.

#[local] Open Scope nat_scope.

Lemma pushAlliteration_final (i : Z) (word : string) (s : Tables) :
  wfAlliteration s -> (0 <= i <= 25)%Z ->
  final (pushAlliteration i word s) =
    mkTables (rhymeTable s) (phoneticTable s)
      (pushAt (Z.to_nat i) word (alliterationTable s)).
Proof.
  intros Hwf Hi. unfold pushAlliteration, readAlliterationList, readAlliteration.
  unfold bind at 1 2. cbn [outcome final calls alliterationAt].
  destruct (Z.ltb_spec i 0) as [Hneg|_]; [lia|].
  destruct (lookup_lt_is_Some_2 (alliterationTable s) (Z.to_nat i)) as [l Hl].
  { unfold wfAlliteration in Hwf. lia. }
  unfold pushAt. rewrite Hl. reflexivity.
Qed.

Lemma letterSlot_alphabetic (word : string) :
  isAlphabetic word = true ->
  letterIndexOf (Str.toLowerCase (String.substring 0 1 word))
    = Some (Z.of_nat (letterSlot word)) /\
  letterSlot word < 26.
Proof.
  intros Hw. destruct (letterIndex_alphabetic word Hw) as (i & Hi & Hr).
  unfold letterSlot. rewrite Hi. split; [f_equal; lia|lia].
Qed.

Lemma addWord_final (word : string) (L : Z) (s : Tables) :
  wfTables s -> wfAlliteration s -> isAlphabetic word = true ->
  final (addWord word L s) =
    mkTables (snd (insertHash (rhymeTable s) (tableKey Rhyme L word) word))
      (snd (insertHash (phoneticTable s) (tableKey Phonetic L word) word))
      (pushAt (letterSlot word) word (alliterationTable s)).
Proof.
  intros [Hr Hp] Ha Hw.
  destruct (insertHash_returns (rhymeTable s) (extractSuffix word L) word Hr) as [b1 Hb1].
  destruct (letterSlot_alphabetic word Hw) as [Hi Hlt].
  set (T1 := snd (insertHash (rhymeTable s) (extractSuffix word L) word)).
  set (s1 := mkTables T1 (phoneticTable s) (alliterationTable s)).
  assert (H1 : insertHashIn Rhyme (extractSuffix word L) word s =
               mkRun (Returned b1) s1
                 [InsertHashCall Rhyme (extractSuffix word L) word (Returned b1)]).
  { rewrite insertHashIn_run. cbn [getTable setTable]. rewrite Hb1. reflexivity. }
  destruct (pushAlliteration_run (Z.of_nat (letterSlot word)) word s1 Ha ltac:(lia))
    as (al & Hpush & _).
  pose proof (pushAlliteration_final (Z.of_nat (letterSlot word)) word s1 Ha ltac:(lia))
    as Hfin.
  rewrite Hpush in Hfin. cbn [final] in Hfin. rewrite Nat2Z.id in Hfin.
  inversion Hfin as [Hal]. clear Hfin.
  unfold addWord, tableKey.
  rewrite (bind_Returned_run _ _ _ b1) by (rewrite H1; reflexivity).
  rewrite H1. cbn beta iota delta [outcome final calls]. rewrite Hi.
  rewrite (bind_Returned_run _ _ _ tt) by (rewrite Hpush; reflexivity).
  rewrite Hpush. cbn beta iota delta [outcome final calls rhymeTable phoneticTable s1].
  destruct (insertHash_returns (phoneticTable s)
              (extractSuffix (computePhoneticKey word) L) word Hp) as [b2 Hb2].
  rewrite (bind_Returned_run _ _ _ b2)
    by (rewrite insertHashIn_run; cbn [getTable phoneticTable outcome]; exact Hb2).
  rewrite insertHashIn_run.
  cbn [getTable setTable rhymeTable phoneticTable alliterationTable ret outcome final calls].
  rewrite Hal. reflexivity.
Qed.

(** The loop over the lines is three folds over the accepted words: one
    per table, and one over the alliteration array. *)
Lemma buildLoop_final (lines : list string) (L : Z) :
  forall (s : Tables) (wc : N),
    wfTables s -> wfAlliteration s ->
    final (buildLoop lines L wc s) =
      mkTables
        (insertAll (rhymeTable s) (keyed (tableKey Rhyme L) (acceptedWords lines)))
        (insertAll (phoneticTable s) (keyed (tableKey Phonetic L) (acceptedWords lines)))
        (pushAll (alliterationTable s) (acceptedWords lines)).
Proof.
  induction lines as [|line rest IH]; intros s wc Hwf Ha.
  - destruct s. reflexivity.
  - rewrite buildLoop_cons. cbn [acceptedWords].
    destruct (accepted line) as [word|] eqn:Hacc; [|apply IH; assumption].
    pose proof (accepted_alphabetic _ _ Hacc) as Hw.
    destruct (addWord_run word L s Hwf Ha Hw)
      as (b1 & b2 & i & s' & _ & _ & Hwf' & Ha' & Hrun).
    pose proof (addWord_final word L s Hwf Ha Hw) as Hfin.
    rewrite Hrun in Hfin. cbn [final] in Hfin.
    rewrite (bind_Returned_run _ _ _ tt) by (rewrite Hrun; reflexivity).
    rewrite Hrun. cbn [outcome final calls].
    rewrite (IH s' (wc + 1)%N Hwf' Ha'). rewrite Hfin. reflexivity.
Qed.

Lemma pushAt_length (j : nat) (w : string) (al : list (list string)) :
  length (pushAt j w al) = length al.
Proof. unfold pushAt. destruct (al !! j); [apply length_insert|reflexivity]. Qed.

Lemma pushAll_lookup (ws : list string) :
  forall (al : list (list string)) (i : nat) (l : list string),
    al !! i = Some l ->
    Forall (fun w => letterSlot w < length al) ws ->
    pushAll al ws !! i = Some (l ++ wordsWithSlot i ws)%list.
Proof.
  induction ws as [|w rest IH]; intros al i l Hi Hws; simpl.
  - rewrite app_nil_r. exact Hi.
  - inversion Hws as [|? ? Hw Hrest]; subst.
    destruct (lookup_lt_is_Some_2 al (letterSlot w) Hw) as [lw Hlw].
    assert (Hrest' : Forall (fun w0 => letterSlot w0 < length (pushAt (letterSlot w) w al)) rest).
    { rewrite pushAt_length. exact Hrest. }
    destruct (Nat.eqb_spec (letterSlot w) i) as [Heq|Hne].
    + subst i. rewrite (IH _ _ (l ++ [w])%list); [| |exact Hrest'].
      * rewrite <- app_assoc. reflexivity.
      * unfold pushAt. rewrite Hi. apply list_lookup_insert_eq.
        eapply lookup_lt_Some; eauto.
    + apply IH; [|exact Hrest'].
      unfold pushAt. rewrite Hlw. rewrite list_lookup_insert_ne by exact Hne. exact Hi.
Qed.

Lemma acceptedWords_alphabetic (lines : list string) :
  Forall (fun w => isAlphabetic w = true) (acceptedWords lines).
Proof.
  induction lines as [|line rest IH]; simpl; [constructor|].
  destruct (accepted line) as [word|] eqn:Hacc; [|exact IH].
  constructor; [eapply accepted_alphabetic; eauto|exact IH].
Qed.

Lemma wordsWithKey_elem (key : string -> string) (k : string) (ws : list string)
      (w : string) :
  w ∈ wordsWithKey key k ws -> w ∈ ws /\ key w = k.
Proof.
  induction ws as [|x rest IH]; simpl; intros Hw.
  - apply elem_of_nil in Hw. contradiction.
  - destruct (Str.eqb (key x) k) eqn:Hk.
    + apply elem_of_cons in Hw as [->|Hw].
      * apply Str_eqb_eq in Hk. split; [apply elem_of_cons; auto|exact Hk].
      * destruct (IH Hw). split; [apply elem_of_cons; auto|assumption].
    + destruct (IH Hw). split; [apply elem_of_cons; auto|assumption].
Qed.

Lemma placedWords_elem (key : string -> string) (k : string) (ws : list string) :
  forall (T : HashTable) (w : string),
    w ∈ placedWords T (keyed key ws) k -> w ∈ wordsWithKey key k ws.
Proof.
  induction ws as [|x rest IH]; intros T w Hw; [exact Hw|].
  cbn [keyed map placedWords wordsWithKey] in *. fold (keyed key rest) in *.
  destruct (fst (insertHash T (key x) x)) as [[|]|];
    destruct (Str.eqb (key x) k); eauto.
  - apply elem_of_cons in Hw as [->|Hw]; apply elem_of_cons; eauto.
  - apply elem_of_cons. eauto.
  - apply elem_of_cons. eauto.
Qed.

End BuildShape.

Section AlliterationLookup.

#[local] Open Scope nat_scope.

Lemma take_min_length {A : Type} (m : Z) (l : list A) :
  take (Z.to_nat (Z.min m (Z.of_nat (length l)))) l = take (Z.to_nat m) l.
Proof.
  destruct (Z.min_spec m (Z.of_nat (length l))) as [[_ ->]|[Hle ->]]; [reflexivity|].
  rewrite Nat2Z.id, firstn_all. symmetry. apply take_ge. lia.
Qed.

Lemma findAlliteration_exact (s : Tables) (letter : string) (m : Z) (i : nat) :
  letterIndexOf (Str.toLowerCase letter) = Some (Z.of_nat i) -> i < 26 ->
  outcome (findAlliteration letter m s)
    = Returned (take (Z.to_nat m) (default [] (alliterationTable s !! i))).
Proof.
  intros Hi Hlt. unfold findAlliteration. cbv zeta. rewrite Hi.
  assert (Hin : indexOutOfRange (Some (Z.of_nat i)) = false).
  { unfold indexOutOfRange. apply orb_false_iff. split; apply Z.ltb_ge; lia. }
  rewrite Hin.
  assert (Hat : alliterationAt s (Some (Z.of_nat i)) = alliterationTable s !! i).
  { unfold alliterationAt. destruct (Z.ltb_spec (Z.of_nat i) 0); [lia|].
    rewrite Nat2Z.id. reflexivity. }
  rewrite <- Hat. clear Hat Hin Hi.
  generalize (Some (Z.of_nat i)). intros idx.
  unfold bind, readAlliterationList, readAlliteration, bind, ret, throw; simpl.
  destruct (alliterationAt s idx) as [l|] eqn:E; simpl; [|rewrite take_nil; reflexivity].
  rewrite E; simpl.
  destruct (Nat.eqb_spec (length l) 0) as [H0|Hn]; simpl.
  - destruct l; [rewrite take_nil; reflexivity|discriminate].
  - rewrite E; simpl. rewrite take_min_length. reflexivity.
Qed.

End AlliterationLookup.

(** X20.  The build is three folds over the accepted words of the list, in
    order: the rhyme table is a new table after the inserts of each word
    under its suffix, the phonetic table a new table after the inserts of
    each word under the suffix of its phonetic key, and the alliteration
    array 26 empty lists after one push per word.  Lines that are not
    accepted leave no trace in the result. *)
Theorem build_is_three_folds :
  forall (wordlistText : string) (suffixLength : Z),
  exists r : BuildResult,
    buildPoetryAssistant wordlistText suffixLength = Returned r /\
    tables r =
      mkTables
        (insertAll (newHashTable tableSize)
           (keyed (tableKey Rhyme suffixLength)
              (acceptedWords (splitLines wordlistText))))
        (insertAll (newHashTable tableSize)
           (keyed (tableKey Phonetic suffixLength)
              (acceptedWords (splitLines wordlistText))))
        (pushAll (replicate 26 []) (acceptedWords (splitLines wordlistText))).
Proof.
  intros text L.
  destruct (buildPoetryAssistant_returns text L) as (r & Hr & _).
  exists r. split; [exact Hr|].
  rewrite (buildPoetryAssistant_tables _ _ _ Hr).
  destruct wfTables_new as [Hwf Ha].
  unfold buildRun. rewrite (buildLoop_final _ _ _ _ Hwf Ha). reflexivity.
Qed.

Lemma alliteration_lists_of_build_holds :
  forall (wordlistText : string) (suffixLength : Z) (i : nat),
    (i < 26)%nat ->
    alliterationTable (final (buildRun wordlistText suffixLength)) !! i
      = Some (wordsWithSlot i (acceptedWords (splitLines wordlistText))).
Proof.
  intros text L i Hi.
  destruct wfTables_new as [Hwf Ha].
  unfold buildRun. rewrite (buildLoop_final _ _ _ _ Hwf Ha). cbn [alliterationTable].
  rewrite (pushAll_lookup _ (alliterationTable newTables) i []).
  - reflexivity.
  - apply lookup_replicate_2. exact Hi.
  - eapply Forall_impl; [apply acceptedWords_alphabetic|].
    intros w Hw. cbv beta. unfold wfAlliteration in Ha. rewrite Ha.
    apply letterSlot_alphabetic. exact Hw.
Qed.

(** X21.  After the build, the list of the alliteration array for a letter
    holds exactly the accepted words that begin with that letter, in
    either case, in the order of the word list. *)
Theorem alliteration_lists_of_build :
  forall (wordlistText : string) (suffixLength : Z) (i : nat),
    (i < 26)%nat ->
    alliterationTable (final (buildRun wordlistText suffixLength)) !! i
      = Some (wordsWithSlot i (acceptedWords (splitLines wordlistText))).
Proof. exact alliteration_lists_of_build_holds. Qed.

Lemma alliteration_lists_of_build_witness :
  (2 < 26)%nat /\
  alliterationTable (final (buildRun threeRhymesText 2)) !! 2%nat
    = Some (wordsWithSlot 2 (acceptedWords (splitLines threeRhymesText))).
Proof.
  split; [lia|].
  apply (alliteration_lists_of_build threeRhymesText 2 2). lia.
Defined.

(** X22.  When the accepted words have no more different keys than the
    table has slots (6577), a search of the built table returns exactly
    the accepted words filed under that key, in the order of the word
    list; this holds for the rhyme table and for the phonetic table. *)
Theorem built_table_search :
  forall (wordlistText : string) (suffixLength : Z) (t : TableId) (k : string),
    (length (distinct (map (tableKey t suffixLength)
                         (acceptedWords (splitLines wordlistText))))
     <= N.to_nat tableSize)%nat ->
    fst (searchHash (getTable t (final (buildRun wordlistText suffixLength))) k)
      = Returned (wordsWithKey (tableKey t suffixLength) k
                    (acceptedWords (splitLines wordlistText))).
Proof.
  intros text L t k Hn.
  destruct wfTables_new as [Hwf Ha].
  unfold buildRun. rewrite (buildLoop_final _ _ _ _ Hwf Ha).
  destruct t; cbn [getTable rhymeTable phoneticTable newTables];
    apply search_returns_words_with_key_holds; exact Hn.
Qed.

Lemma built_table_search_witness :
  (length (distinct (map (tableKey Rhyme 2)
                       (acceptedWords (splitLines threeRhymesText))))
   <= N.to_nat tableSize)%nat /\
  fst (searchHash (getTable Rhyme (final (buildRun threeRhymesText 2))) "at")
    = Returned (wordsWithKey (tableKey Rhyme 2) "at"
                  (acceptedWords (splitLines threeRhymesText))).
Proof.
  assert (H : (length (distinct (map (tableKey Rhyme 2)
                                   (acceptedWords (splitLines threeRhymesText))))
               <= N.to_nat tableSize)%nat).
  { apply Nat.leb_le. vm_compute. reflexivity. }
  split; [exact H|].
  apply (built_table_search threeRhymesText 2 Rhyme "at" H).
Defined.

(** X23.  On the tables of a build, with the suffix length of the build,
    [findRhymes] returns, and each word it returns is an accepted word of
    the list with the same suffix as the input word, and is not the input
    word. *)
Theorem findRhymes_on_built_tables :
  forall (wordlistText : string) (suffixLength : Z) (inputWord : string)
         (maxResults : Z),
  exists rs : list string,
    outcome (findRhymes Rhyme inputWord suffixLength maxResults
               (final (buildRun wordlistText suffixLength))) = Returned rs /\
    forall r, r ∈ rs ->
      r ∈ acceptedWords (splitLines wordlistText) /\
      extractSuffix r suffixLength = extractSuffix inputWord suffixLength /\
      r <> inputWord.
Proof.
  intros text L w m.
  destruct (buildRun_returns text L) as [_ Hwf].
  destruct (findRhymes_wf Rhyme w L m _ Hwf) as [[rs Hrs] _].
  exists rs. split; [exact Hrs|].
  intros r Hr.
  destruct (findRhymes_ranked_holds _ _ _ _ _ _ Hrs) as (cs & Hcs & Helem & _).
  destruct (Helem r Hr) as [Hin Hpos].
  destruct wfTables_new as [Hwf0 Ha0].
  unfold buildRun in Hcs. rewrite (buildLoop_final _ _ _ _ Hwf0 Ha0) in Hcs.
  cbn [getTable rhymeTable newTables] in Hcs.
  rewrite searchHash_after_inserts_holds in Hcs. inversion Hcs; subst cs.
  apply placedWords_elem, wordsWithKey_elem in Hin as [Hin Hkey].
  split; [exact Hin|]. split; [exact Hkey|].
  intros ->. rewrite scoreRhyme_same in Hpos. lia.
Qed.

(** ** Queries *)

Section SameBuckets.

#[local] Open Scope nat_scope.

Lemma sameTable_refl (T : HashTable) : sameTable T T.
Proof. repeat split. Qed.

Lemma sameTable_sym (T T' : HashTable) : sameTable T T' -> sameTable T' T.
Proof. intros (? & ? & ?). repeat split; auto. Qed.

Lemma sameTable_trans (T1 T2 T3 : HashTable) :
  sameTable T1 T2 -> sameTable T2 T3 -> sameTable T1 T3.
Proof. intros (? & ? & ?) (? & ? & ?). repeat split; congruence. Qed.

Lemma sameBuckets_refl (s : Tables) : sameBuckets s s.
Proof. repeat split. Qed.

Lemma sameBuckets_sym (s s' : Tables) : sameBuckets s s' -> sameBuckets s' s.
Proof.
  intros (Hr & Hp & Ha).
  split; [apply sameTable_sym; exact Hr|].
  split; [apply sameTable_sym; exact Hp|congruence].
Qed.

Lemma sameBuckets_trans (s1 s2 s3 : Tables) :
  sameBuckets s1 s2 -> sameBuckets s2 s3 -> sameBuckets s1 s3.
Proof.
  intros (? & ? & ?) (? & ? & ?).
  split; [eapply sameTable_trans; eauto|].
  split; [eapply sameTable_trans; eauto|congruence].
Qed.

(** What a search returns depends on the buckets only, not on the counter
    of probe steps. *)
Lemma searchLoop_same (fuel : nat) (k : string) :
  forall (T T' : HashTable) (index : N),
    sameTable T T' ->
    fst (searchLoop fuel T k index) = fst (searchLoop fuel T' k index).
Proof.
  induction fuel as [|fuel IH]; intros T T' index (Hs & Ht & Hc); [reflexivity|].
  simpl. unfold slot. rewrite Ht.
  destruct (table T' !! N.to_nat index) as [[e|]|]; try reflexivity.
  destruct (Str.eqb (suffix e) k); [reflexivity|].
  rewrite Hs. apply IH. repeat split; simpl; assumption.
Qed.

Lemma searchHash_same (T T' : HashTable) (k : string) :
  sameTable T T' -> fst (searchHash T k) = fst (searchHash T' k).
Proof.
  intros H. unfold searchHash. destruct H as (Hs & Ht & Hc). rewrite Hs.
  apply searchLoop_same. repeat split; assumption.
Qed.

Lemma searchHash_sameTable (T : HashTable) (k : string) :
  sameTable T (snd (searchHash T k)).
Proof.
  destruct (searchHash T k) as [r T'] eqn:H.
  apply searchHash_frame in H as (? & ? & ? & _). repeat split; auto.
Qed.

Lemma Respects_ret {A : Type} (a : A) : Respects (ret a).
Proof. intros s s' H. simpl. auto. Qed.

Lemma Respects_throw {A : Type} (e : Error) : Respects (@throw A e).
Proof. intros s s' H. simpl. auto. Qed.

Lemma Respects_bind {A B : Type} (m : JS A) (k : A -> JS B) :
  Respects m -> (forall a, Respects (k a)) -> Respects (bind m k).
Proof.
  intros Hm Hk s s' Hs. destruct (Hm s s' Hs) as (Ho & Hc & Hf).
  unfold bind. rewrite <- Ho, <- Hc.
  destruct (outcome (m s)) as [a|e]; simpl; [|auto].
  destruct (Hk a _ _ Hf) as (Ho' & Hc' & Hf'). rewrite Ho', Hc'. auto.
Qed.

Lemma Keeps_ret {A : Type} (a : A) : Keeps (ret a).
Proof. intros s. apply sameBuckets_refl. Qed.

Lemma Keeps_throw {A : Type} (e : Error) : Keeps (@throw A e).
Proof. intros s. apply sameBuckets_refl. Qed.

Lemma Keeps_bind {A B : Type} (m : JS A) (k : A -> JS B) :
  Keeps m -> (forall a, Keeps (k a)) -> Keeps (bind m k).
Proof.
  intros Hm Hk s. unfold bind.
  destruct (outcome (m s)) as [a|e]; simpl; [|apply Hm].
  eapply sameBuckets_trans; [apply Hm|apply Hk].
Qed.

Lemma Respects_searchHashIn (t : TableId) (k : string) : Respects (searchHashIn t k).
Proof.
  intros s s' (Hr & Hp & Ha). rewrite !searchHashIn_run. simpl.
  assert (Ht : sameTable (getTable t s) (getTable t s')) by (destruct t; assumption).
  split; [apply searchHash_same; exact Ht|]. split; [reflexivity|].
  pose proof (searchHash_sameTable (getTable t s) k) as H1.
  pose proof (searchHash_sameTable (getTable t s') k) as H2.
  assert (H12 : sameTable (snd (searchHash (getTable t s) k))
                  (snd (searchHash (getTable t s') k))).
  { eapply sameTable_trans; [apply sameTable_sym; exact H1|].
    eapply sameTable_trans; [exact Ht|exact H2]. }
  destruct t; simpl in *.
  - split; [exact H12|]. split; [exact Hp|exact Ha].
  - split; [exact Hr|]. split; [exact H12|exact Ha].
Qed.

Lemma Keeps_searchHashIn (t : TableId) (k : string) : Keeps (searchHashIn t k).
Proof.
  intros s. rewrite searchHashIn_run. simpl.
  pose proof (searchHash_sameTable (getTable t s) k) as H.
  destruct t; simpl in *.
  - split; [exact H|]. split; [apply sameTable_refl|reflexivity].
  - split; [apply sameTable_refl|]. split; [exact H|reflexivity].
Qed.

Lemma Respects_readAlliteration (index : option Z) : Respects (readAlliteration index).
Proof.
  intros s s' Hs. pose proof Hs as (_ & _ & Ha).
  unfold readAlliteration, alliterationAt. simpl. rewrite Ha. auto.
Qed.

Lemma Keeps_readAlliteration (index : option Z) : Keeps (readAlliteration index).
Proof. intros s. apply sameBuckets_refl. Qed.

Lemma Respects_readAlliterationList (index : option Z) :
  Respects (readAlliterationList index).
Proof.
  apply Respects_bind; [apply Respects_readAlliteration|].
  intros [l|]; [apply Respects_ret|apply Respects_throw].
Qed.

Lemma Keeps_readAlliterationList (index : option Z) : Keeps (readAlliterationList index).
Proof.
  apply Keeps_bind; [apply Keeps_readAlliteration|].
  intros [l|]; [apply Keeps_ret|apply Keeps_throw].
Qed.

Lemma Respects_findAlliteration (letter : string) (m : Z) :
  Respects (findAlliteration letter m).
Proof.
  unfold findAlliteration. cbv zeta.
  destruct (indexOutOfRange _); [apply Respects_ret|].
  apply Respects_bind; [apply Respects_readAlliteration|].
  intros [l|]; [|apply Respects_ret].
  apply Respects_bind; [apply Respects_readAlliterationList|].
  intros l'. destruct (Nat.eqb (length l') 0); [apply Respects_ret|].
  apply Respects_bind; [apply Respects_readAlliterationList|].
  intros wl. apply Respects_ret.
Qed.

Lemma Keeps_findAlliteration (letter : string) (m : Z) :
  Keeps (findAlliteration letter m).
Proof.
  unfold findAlliteration. cbv zeta.
  destruct (indexOutOfRange _); [apply Keeps_ret|].
  apply Keeps_bind; [apply Keeps_readAlliteration|].
  intros [l|]; [|apply Keeps_ret].
  apply Keeps_bind; [apply Keeps_readAlliterationList|].
  intros l'. destruct (Nat.eqb (length l') 0); [apply Keeps_ret|].
  apply Keeps_bind; [apply Keeps_readAlliterationList|].
  intros wl. apply Keeps_ret.
Qed.

Lemma Respects_findRhymes (t : TableId) (w : string) (L m : Z) :
  Respects (findRhymes t w L m).
Proof.
  unfold findRhymes. cbv zeta.
  apply Respects_bind; [apply Respects_searchHashIn|]. intros cs. apply Respects_ret.
Qed.

Lemma Keeps_findRhymes (t : TableId) (w : string) (L m : Z) :
  Keeps (findRhymes t w L m).
Proof.
  unfold findRhymes. cbv zeta.
  apply Keeps_bind; [apply Keeps_searchHashIn|]. intros cs. apply Keeps_ret.
Qed.

Lemma Respects_phoneticSearch (t : TableId) (w : string) (L m : Z) :
  Respects (phoneticSearch t w L m).
Proof.
  unfold phoneticSearch. cbv zeta.
  apply Respects_bind; [apply Respects_searchHashIn|]. intros cs. apply Respects_ret.
Qed.

Lemma Keeps_phoneticSearch (t : TableId) (w : string) (L m : Z) :
  Keeps (phoneticSearch t w L m).
Proof.
  unfold phoneticSearch. cbv zeta.
  apply Keeps_bind; [apply Keeps_searchHashIn|]. intros cs. apply Keeps_ret.
Qed.

Lemma Respects_query (w : string) (L : Z) : Respects (query w L).
Proof.
  unfold query.
  apply Respects_bind; [apply Respects_findRhymes|]. intros rs. cbv zeta.
  apply Respects_bind.
  { destruct (Str.at_ w 0); [apply Respects_findAlliteration|apply Respects_throw]. }
  intros al. apply Respects_bind; [|intros rs'; apply Respects_ret].
  destruct (Nat.ltb (length rs) 3); [|apply Respects_ret].
  apply Respects_bind; [apply Respects_phoneticSearch|]. intros ps. apply Respects_ret.
Qed.

Lemma Keeps_query (w : string) (L : Z) : Keeps (query w L).
Proof.
  unfold query.
  apply Keeps_bind; [apply Keeps_findRhymes|]. intros rs. cbv zeta.
  apply Keeps_bind.
  { destruct (Str.at_ w 0); [apply Keeps_findAlliteration|apply Keeps_throw]. }
  intros al. apply Keeps_bind; [|intros rs'; apply Keeps_ret].
  destruct (Nat.ltb (length rs) 3); [|apply Keeps_ret].
  apply Keeps_bind; [apply Keeps_phoneticSearch|]. intros ps. apply Keeps_ret.
Qed.

End SameBuckets.

Section QueryResults.

#[local] Open Scope nat_scope.

(** The parts of the result of a query that returns. *)
Lemma query_Returned_inv (w : string) (L : Z) (s : Tables) (res : QueryResult) :
  outcome (query w L s) = Returned res ->
  exists (c : ascii) (rs : list string),
    Str.at_ w 0 = Some c /\
    outcome (findRhymes Rhyme w L 10 s) = Returned rs /\
    outcome (findAlliteration (String c EmptyString) 5
               (final (findRhymes Rhyme w L 10 s))) = Returned (alliterations res) /\
    syllables res = countSyllables w /\
    (rhymes res = rs \/
     exists ps s2,
       outcome (phoneticSearch Phonetic w L 7 s2) = Returned ps /\
       rhymes res = appendNew rs ps).
Proof.
  unfold query. intros H.
  apply bind_Returned_inv in H as (rs & Hrs & H).
  apply bind_Returned_inv in H as (al & Hal & H).
  apply bind_Returned_inv in H as (rs' & Hrs' & H).
  simpl in H. inversion H; subst res; clear H. simpl.
  destruct (Str.at_ w 0) as [c|]; [|discriminate].
  exists c, rs. split; [reflexivity|]. split; [exact Hrs|]. split; [exact Hal|].
  split; [reflexivity|].
  destruct (Nat.ltb (length rs) 3).
  - apply bind_Returned_inv in Hrs' as (ps & Hps & Hrs').
    simpl in Hrs'. inversion Hrs'; subst rs'. right. eauto.
  - simpl in Hrs'. inversion Hrs'; subst rs'. left. reflexivity.
Qed.

Lemma letterSlot_first (c : ascii) (rest : string) :
  letterSlot (String c rest) = letterSlot (String c EmptyString).
Proof. unfold letterSlot. destruct rest; reflexivity. Qed.

End QueryResults.

(** X24.  The query of the empty word throws a TypeError, whatever the
    tables and the suffix length: [inputWord[0]] is [undefined], and
    [findAlliteration] calls [toLowerCase] on it. *)
Theorem query_empty_word_throws :
  forall (s : Tables) (suffixLength : Z),
    outcome (query EmptyString suffixLength s) = Thrown TypeError.
Proof.
  intros s L. unfold query, bind.
  destruct (outcome (findRhymes Rhyme EmptyString L 10 s)) as [rs|[]]; reflexivity.
Qed.

(** X25.  Every rhyme that a query returns, orthographic or phonetic,
    scores above zero against the input word; the input word itself is
    never among them. *)
Theorem query_rhymes_score_above_zero :
  forall (s : Tables) (inputWord : string) (suffixLength : Z) (res : QueryResult),
    outcome (query inputWord suffixLength s) = Returned res ->
    forall r, r ∈ rhymes res -> (0 < scoreRhyme inputWord r)%Z /\ r <> inputWord.
Proof.
  intros s w L res H r Hr.
  assert (Hpos : (0 < scoreRhyme w r)%Z).
  { destruct (query_Returned_inv _ _ _ _ H) as (c & rs & _ & Hrs & _ & _ & Hcase).
    destruct (findRhymes_ranked_holds _ _ _ _ _ _ Hrs) as (cs & _ & Helem & _).
    destruct Hcase as [Heq|(ps & s2 & Hps & Heq)]; rewrite Heq in Hr.
    - apply Helem. exact Hr.
    - apply appendNew_elem in Hr as [Hr|Hr]; [apply Helem; exact Hr|].
      destruct (phoneticSearch_ranked_holds _ _ _ _ _ _ Hps) as (cs' & _ & Helem' & _).
      apply Helem'. exact Hr. }
  split; [exact Hpos|]. intros ->. rewrite scoreRhyme_same in Hpos. lia.
Qed.

Lemma query_rhymes_score_above_zero_witness :
  outcome (query "cat" 2 (final (buildRun threeRhymesText 2)))
    = Returned {| rhymes := ["hat"; "bat"; "mat"]; syllables := 1;
                  alliterations := ["cat"] |} /\
  forall r, r ∈ ["hat"; "bat"; "mat"] -> (0 < scoreRhyme "cat" r)%Z /\ r <> "cat".
Proof.
  assert (H : outcome (query "cat" 2 (final (buildRun threeRhymesText 2)))
              = Returned {| rhymes := ["hat"; "bat"; "mat"]; syllables := 1;
                            alliterations := ["cat"] |}) by (vm_compute; reflexivity).
  split; [exact H|].
  apply (query_rhymes_score_above_zero (final (buildRun threeRhymesText 2)) "cat" 2 _ H).
Defined.

(** X26.  A query, whether it returns or throws, leaves the buckets of both
    tables (their [size], [table] and [count]) and the alliteration lists as
    they were. *)
Theorem query_keeps_buckets :
  forall (s : Tables) (inputWord : string) (suffixLength : Z),
    sameBuckets s (final (query inputWord suffixLength s)).
Proof. intros s w L. apply Keeps_query. Qed.

(** X27.  The answer of a query does not depend on the queries made
    before it: after any other query, a query completes as it would have
    on the tables as they were, after the same calls. *)
Theorem query_after_query :
  forall (s : Tables) (w1 : string) (L1 : Z) (w2 : string) (L2 : Z),
    outcome (query w2 L2 (final (query w1 L1 s))) = outcome (query w2 L2 s) /\
    calls (query w2 L2 (final (query w1 L1 s))) = calls (query w2 L2 s).
Proof.
  intros s w1 L1 w2 L2.
  destruct (Respects_query w2 L2 (final (query w1 L1 s)) s) as (Ho & Hc & _).
  - apply sameBuckets_sym, Keeps_query.
  - auto.
Qed.

(** X28.  For an input word that begins with a letter, a query on the
    tables of a build returns; its alliterations are the first five
    accepted words of the list that begin with that letter, in either
    case, and its syllables are those of [countSyllables]. *)
Theorem query_alliterations_on_built_tables :
  forall (wordlistText : string) (builtLength : Z) (c : ascii) (rest : string)
         (suffixLength : Z),
    isLetter c = true ->
    exists res : QueryResult,
      outcome (query (String c rest) suffixLength
                 (final (buildRun wordlistText builtLength))) = Returned res /\
      alliterations res
        = take 5 (wordsWithSlot (letterSlot (String c rest))
                    (acceptedWords (splitLines wordlistText))) /\
      syllables res = countSyllables (String c rest).
Proof.
  intros text Lb c rest L Hc.
  destruct (buildRun_returns text Lb) as [_ Hwf].
  destruct (query_returns (String c rest) L _ Hwf ltac:(discriminate)) as [res Hres].
  exists res. split; [exact Hres|].
  destruct (query_Returned_inv _ _ _ _ Hres) as (c' & rs & Hc' & _ & Hal & Hsyl & _).
  simpl in Hc'. inversion Hc'; subst c'. split; [|exact Hsyl].
  assert (Hw : isAlphabetic (String c EmptyString) = true)
    by (simpl; rewrite Hc; reflexivity).
  destruct (letterSlot_alphabetic _ Hw) as [Hi Hlt].
  change (String.substring 0 1 (String c EmptyString)) with (String c EmptyString) in Hi.
  rewrite (findAlliteration_exact _ (String c EmptyString) 5 _ Hi Hlt) in Hal.
  inversion Hal as [Hal']. rewrite (letterSlot_first c rest).
  destruct (Keeps_findRhymes Rhyme (String c rest) L 10 (final (buildRun text Lb)))
    as (_ & _ & Ha).
  rewrite <- Ha, (alliteration_lists_of_build_holds text Lb _ Hlt). reflexivity.
Qed.

Lemma query_alliterations_on_built_tables_witness :
  isLetter "c" = true /\
  exists res : QueryResult,
    outcome (query (String "c" "at") 2 (final (buildRun threeRhymesText 2)))
      = Returned res /\
    alliterations res
      = take 5 (wordsWithSlot (letterSlot (String "c" "at"))
                  (acceptedWords (splitLines threeRhymesText))) /\
    syllables res = countSyllables (String "c" "at").
Proof.
  split; [reflexivity|].
  apply (query_alliterations_on_built_tables threeRhymesText 2 "c" "at" 2). reflexivity.
Defined.

(** X29.  For a letter of the alphabet, in either case, [findAlliteration]
    returns the first [maxResults] words of the list of that letter (none
    when the array has no such list), and it leaves the structures as they
    were. *)
Theorem findAlliteration_returns_prefix :
  forall (s : Tables) (letter : string) (maxResults : Z) (i : nat),
    letterIndexOf (Str.toLowerCase letter) = Some (Z.of_nat i) -> (i < 26)%nat ->
    outcome (findAlliteration letter maxResults s)
      = Returned (take (Z.to_nat maxResults) (default [] (alliterationTable s !! i))) /\
    final (findAlliteration letter maxResults s) = s.
Proof.
  intros s letter m i Hi Hlt. split; [apply findAlliteration_exact; assumption|].
  destruct (findAlliteration_returns letter m s) as (l & _ & Hf). exact Hf.
Qed.

Lemma findAlliteration_returns_prefix_witness :
  letterIndexOf (Str.toLowerCase "C") = Some (Z.of_nat 2) /\ (2 < 26)%nat /\
  outcome (findAlliteration "C" 5 (final (buildRun threeRhymesText 2)))
    = Returned (take (Z.to_nat 5)
                  (default [] (alliterationTable (final (buildRun threeRhymesText 2))
                               !! 2%nat))) /\
  final (findAlliteration "C" 5 (final (buildRun threeRhymesText 2)))
    = final (buildRun threeRhymesText 2).
Proof.
  split; [reflexivity|]. split; [lia|].
  apply (findAlliteration_returns_prefix (final (buildRun threeRhymesText 2)) "C" 5 2).
  - reflexivity.
  - lia.
Defined.

(** X30.  [buildPoetryAssistantFromFile] resolves to [null] when the word
    list could not be loaded, and only then: once the text is there it
    resolves to the result of [buildPoetryAssistant], which never throws
    into the [catch] block. *)
Theorem buildPoetryAssistantFromFile_null :
  forall (fetched : Fetched) (suffixLength : Z),
    match fetched with
    | FetchedText text =>
        exists r, buildPoetryAssistant text suffixLength = Returned r /\
                  buildPoetryAssistantFromFile fetched suffixLength = Some r
    | _ => buildPoetryAssistantFromFile fetched suffixLength = None
    end.
Proof.
  intros [ | | |text] L; try reflexivity. simpl.
  destruct (buildPoetryAssistant_returns text L) as (r & Hr & _). rewrite Hr. eauto.
Qed.
